(** * Monte Carlo option pricing engine (monte_carlo.py)

    A shallow embedding of [OptionParams], [MonteCarloEngine.simulate_paths]
    and [MonteCarloEngine.price_option].

    The program computes on float64 values through numpy.  The embedding is
    generic in the carrier [F] of those values: the arithmetic the source
    calls ([+], [-], [*], [/], [**], [np.exp], [np.sqrt], [np.maximum]) is an
    interface, [FloatOps], and so is the generator behind
    [np.random.default_rng], [RandomSource].  Everything that concerns the
    shape of the computation is proved for every carrier; the statements
    that need the laws of arithmetic are proved for the instance on [R],
    that is over exact real arithmetic.

    The interface is total.  What float64 does at the limits of its range
    (infinities and NaN, the [OverflowError] of an overflowing [**]) is left
    to the instance and plays no part below. *)

From Stdlib Require Import ZArith List String Bool Lia.
From Stdlib Require Import QArith Qreals Reals Lra.
Import ListNotations.

Set Implicit Arguments.

(** ** Exceptions and results *)

(** The exceptions the two methods can raise: Python's float division by
    zero, numpy's refusal of a negative dimension, and an index out of the
    bounds of an axis. *)
Inductive exn : Type :=
| ZeroDivisionError
| ValueError
| IndexError.

Inductive result (A : Type) : Type :=
| Ok (a : A)
| Raise (e : exn).

Arguments Ok {A} a.
Arguments Raise {A} e.


(** ** A small monad interface, for results and for methods of the engine *)

Class Monad (m : Type -> Type) : Type := {
  ret : forall {A : Type}, A -> m A;
  bind : forall {A B : Type}, m A -> (A -> m B) -> m B
}.

Notation "x <- c1 ;; c2" := (bind c1 (fun x => c2))
  (at level 61, c1 at next level, right associativity).

#[global] Instance result_Monad : Monad result := {
  ret := fun A a => Ok a;
  bind := fun A B c f => match c with Ok a => f a | Raise e => Raise e end
}.

(** Python's [for x in xs:] over a body that may raise. *)
Fixpoint for_each {A S : Type} (xs : list A) (body : S -> A -> result S)
    (s : S) : result S :=
  match xs with
  | [] => Ok s
  | x :: xs' =>
      match body s x with
      | Ok s' => for_each xs' body s'
      | Raise e => Raise e
      end
  end.

(** ** The numeric interface *)

(** Operations on float64 scalars, as the source uses them. *)
Class FloatOps (F : Type) : Type := {
  of_int : Z -> F;            (* an int where a float is expected *)
  of_lit : Q -> F;            (* a decimal literal, such as 0.5 or 1.96 *)
  fadd : F -> F -> F;
  fsub : F -> F -> F;
  fmul : F -> F -> F;
  fdiv : F -> F -> F;         (* numpy's division: it never raises *)
  fneg : F -> F;
  fpow : F -> Z -> F;         (* x ** k *)
  np_exp : F -> F;
  np_sqrt : F -> F;
  np_maximum : F -> F -> F
}.

(** The generator: seeding, and one standard-normal draw that returns the
    variate and the generator's next state. *)
Class RandomSource (F G : Type) : Type := {
  default_rng : Z -> G;
  next_normal : G -> F * G
}.

(** ** Data *)

Record OptionParams (F : Type) : Type := {
  S0 : F;
  K : F;
  T : F;
  r : F;
  sigma : F;
  option_type : string
}.

(** A two-dimensional array: its shape, and its rows. *)
Record ndarray (F : Type) : Type := {
  shape : nat * nat;
  data : list (list F)
}.

Record MonteCarloEngine (G : Type) : Type := {
  n_simulations : Z;
  rng : G
}.

(** The dictionary [price_option] returns. *)
Record PricingResult (F : Type) : Type := {
  price : F;
  std_error : F;
  ci_lower : F;
  ci_upper : F;
  paths : ndarray F
}.

(** A method of the engine: it reads and updates [self], and returns a
    value or raises.  The engine's state is kept in both cases. *)
Definition method (G : Type) (A : Type) : Type :=
  MonteCarloEngine G -> result A * MonteCarloEngine G.

#[global] Instance method_Monad (G : Type) : Monad (method G) := {
  ret := fun A a self => (Ok a, self);
  bind := fun A B c f self =>
    match c self with
    | (Ok a, self') => f a self'
    | (Raise e, self') => (Raise e, self')
    end
}.

Definition lift {G A : Type} (x : result A) : method G A :=
  fun self => (x, self).

Definition self_n_simulations {G : Type} : method G Z :=
  fun self => (Ok (n_simulations self), self).

(** ** Lists as vectors and index ranges *)

(** [range(a, a + n)] *)
Definition range (a : Z) (n : nat) : list Z :=
  map (fun i => (a + Z.of_nat i)%Z) (seq 0 n).

Fixpoint update {A : Type} (j : nat) (v : A) (l : list A) : list A :=
  match l, j with
  | [], _ => []
  | _ :: l', O => v :: l'
  | x :: l', S j' => x :: update j' v l'
  end.

Fixpoint map2 {A B C : Type} (f : A -> B -> C) (xs : list A) (ys : list B)
    : list C :=
  match xs, ys with
  | x :: xs', y :: ys' => f x y :: map2 f xs' ys'
  | _, _ => []
  end.

(** ** numpy on the carrier *)

Section Numpy.
Context {F : Type} {ops : FloatOps F}.

Definition fzero : F := of_int 0.

(** [np.zeros((n, m))]: a negative dimension is refused. *)
Definition np_zeros (n m : Z) : result (ndarray F) :=
  if ((n <? 0) || (m <? 0))%Z%bool then Raise ValueError
  else Ok {| shape := (Z.to_nat n, Z.to_nat m);
             data := repeat (repeat fzero (Z.to_nat m)) (Z.to_nat n) |}.

(** An index along the second axis: negative indices count from the end. *)
Definition axis_index (j : Z) (a : ndarray F) : result nat :=
  let c := Z.of_nat (snd (shape a)) in
  if ((0 <=? j) && (j <? c))%Z%bool then Ok (Z.to_nat j)
  else if ((- c <=? j) && (j <? 0))%Z%bool then Ok (Z.to_nat (j + c))
  else Raise IndexError.

(** [a[:, j]] *)
Definition get_col (j : Z) (a : ndarray F) : result (list F) :=
  k <- axis_index j a ;;
  ret (map (fun row => nth k row fzero) (data a)).

(** [a[:, j] = v] for a vector [v] with one entry per row, which is the
    only way the source uses it. *)
Definition set_col (j : Z) (v : list F) (a : ndarray F)
    : result (ndarray F) :=
  k <- axis_index j a ;;
  ret {| shape := shape a;
         data := map2 (fun row x => update k x row) (data a) v |}.

(** [a[:, j] = x] for a scalar [x]. *)
Definition fill_col (j : Z) (x : F) (a : ndarray F) : result (ndarray F) :=
  k <- axis_index j a ;;
  ret {| shape := shape a; data := map (update k x) (data a) |}.

(** [np.mean]: the sum over the count. *)
Definition np_sum (l : list F) : F := fold_left fadd l fzero.

Definition np_mean (l : list F) : F :=
  fdiv (np_sum l) (of_int (Z.of_nat (List.length l))).

(** [np.std], with numpy's default [ddof = 0]: the square root of the mean
    of the squared deviations from the mean. *)
Definition np_std (l : list F) : F :=
  let m := np_mean l in
  np_sqrt (np_mean (map (fun x => fmul (fsub x m) (fsub x m)) l)).

(** Python's [x / n] for a float [x] and an int [n]. *)
Definition py_truediv (x : F) (n : Z) : result F :=
  if (n =? 0)%Z then Raise ZeroDivisionError else Ok (fdiv x (of_int n)).
End Numpy.

(** ** The generator *)

Section Generator.
Context {F G : Type} {rs : RandomSource F G}.

(** [k] draws in sequence. *)
Fixpoint draw_list (k : nat) (g : G) : list F * G :=
  match k with
  | O => ([], g)
  | S k' =>
      let (z, g1) := next_normal g in
      let (zs, g2) := draw_list k' g1 in
      (z :: zs, g2)
  end.

(** [n] rows of [m] draws, filled in row-major order. *)
Fixpoint draw_rows (n m : nat) (g : G) : list (list F) * G :=
  match n with
  | O => ([], g)
  | S n' =>
      let (row, g1) := draw_list m g in
      let (rows, g2) := draw_rows n' m g1 in
      (row :: rows, g2)
  end.

(** [self.rng.standard_normal((n, m))]: a negative dimension is refused
    before anything is drawn; otherwise the generator held by the engine
    is advanced in place. *)
Definition rng_standard_normal (n m : Z) : method G (ndarray F) :=
  fun self =>
    if ((n <? 0) || (m <? 0))%Z%bool then (Raise ValueError, self)
    else
      let (rows, g') := draw_rows (Z.to_nat n) (Z.to_nat m) (rng self) in
      (Ok {| shape := (Z.to_nat n, Z.to_nat m); data := rows |},
       {| n_simulations := n_simulations self; rng := g' |}).

(** The generator's state after [k] draws, and the [k]-th variate it
    yields (counting from 0). *)
Definition advance (k : nat) (g : G) : G :=
  Nat.iter k (fun g0 => snd (next_normal g0)) g.

Definition nth_draw (g : G) (k : nat) : F :=
  fst (next_normal (advance k g)).
End Generator.

(** ** The engine *)

Section Engine.
Context {F G : Type} {ops : FloatOps F} {rs : RandomSource F G}.

(** [MonteCarloEngine(n_simulations, seed)] *)
Definition init (n : Z) (seed : Z) : MonteCarloEngine G :=
  {| n_simulations := n; rng := default_rng seed |}.

(** The exponent of one transition, for one variate [z]:
    [(r - 0.5 * sigma**2) * dt + sigma * np.sqrt(dt) * z]. *)
Definition log_return (params : OptionParams F) (dt z : F) : F :=
  fadd (fmul (fsub (r params) (fmul (of_lit (1 # 2)) (fpow (sigma params) 2))) dt)
       (fmul (fmul (sigma params) (np_sqrt dt)) z).

(** The body of the loop of [simulate_paths], for the time index [t];
    [Zs] is the matrix of variates the source calls [Z]. *)
Definition gbm_step (params : OptionParams F) (dt : F) (Zs : ndarray F)
    (paths : ndarray F) (t : Z) : result (ndarray F) :=
  prev <- get_col (t - 1) paths ;;
  z <- get_col (t - 1) Zs ;;
  set_col t (map2 fmul prev (map (fun x => np_exp (log_return params dt x)) z))
    paths.

Definition simulate_paths (params : OptionParams F) (n_steps : Z)
    : method G (ndarray F) :=
  dt <- lift (py_truediv (T params) n_steps) ;;
  n <- self_n_simulations ;;
  Zs <- rng_standard_normal n n_steps ;;
  paths <- lift (np_zeros n (n_steps + 1)) ;;
  paths <- lift (fill_col 0 (S0 params) paths) ;;
  paths <- lift (for_each (range 1 (Z.to_nat n_steps))
                   (gbm_step params dt Zs) paths) ;;
  ret paths.

(** The payoffs of the terminal prices [S_T]. *)
Definition payoffs_of (params : OptionParams F) (S_T : list F) : list F :=
  if String.eqb (option_type params) "call"
  then map (fun s => np_maximum (fsub s (K params)) fzero) S_T
  else map (fun s => np_maximum (fsub (K params) s) fzero) S_T.

Definition discount (params : OptionParams F) : F :=
  np_exp (fmul (fneg (r params)) (T params)).

Definition price_option (params : OptionParams F)
    : method G (PricingResult F) :=
  paths <- simulate_paths params 252 ;;
  S_T <- lift (get_col (-1) paths) ;;
  let payoffs := payoffs_of params S_T in
  let option_price := fmul (discount params) (np_mean payoffs) in
  n <- self_n_simulations ;;
  let std_error := fdiv (np_std payoffs) (np_sqrt (of_int n)) in
  let discounted_std_error := fmul (discount params) std_error in
  let ci_95 := fmul (of_lit (196 # 100)) discounted_std_error in
  ret {| price := option_price;
         std_error := discounted_std_error;
         ci_lower := fsub option_price ci_95;
         ci_upper := fadd option_price ci_95;
         paths := paths |}.

(** *** Views of the arrays, for the statements below *)

(** The entry [a[i, t]] of an array. *)
Definition entry (a : ndarray F) (i t : nat) : F :=
  nth t (nth i (data a) []) fzero.

(** What the body of the loop does to one row of [paths], given the same
    row of the variates: [row[t] = row[t-1] * exp(...)]. *)
Definition row_step (params : OptionParams F) (dt : F) (zrow : list F)
    (row : list F) (t : nat) : list F :=
  update t (fmul (nth (t - 1) row fzero)
                 (np_exp (log_return params dt (nth (t - 1) zrow fzero))))
    row.

(** Row [i] of the grid after the loop, for a generator in state [g] at
    the call and [m] time steps. *)
Definition path_row (params : OptionParams F) (dt : F) (g : G) (m i : nat)
    : list F :=
  fold_left
    (row_step params dt (map (fun j => nth_draw g (i * m + j)) (seq 0 m)))
    (seq 1 m) (update 0 (S0 params) (repeat fzero (S m))).

(** The last column of an array with at least one column. *)
Definition terminal_prices (a : ndarray F) : list F :=
  map (fun row => nth (snd (shape a) - 1) row fzero) (data a).
End Engine.

(** ** Instances *)

(** Exact real arithmetic. *)
#[global] Instance R_FloatOps : FloatOps R := {
  of_int := IZR;
  of_lit := Q2R;
  fadd := Rplus;
  fsub := Rminus;
  fmul := Rmult;
  fdiv := Rdiv;
  fneg := Ropp;
  fpow := powerRZ;
  np_exp := exp;
  np_sqrt := sqrt;
  np_maximum := Rmax
}.

(** A sample generator over [R], for concrete runs: its state counts the
    draws made so far, and its [k]-th variate is [k]. *)
#[global] Instance counter_source : RandomSource R nat := {
  default_rng := fun _ => O;
  next_normal := fun k => (INR k, S k)
}.

(** ** Notions of the specification, over the reals *)

(** The parameters the specification calls valid. *)
Definition valid_params (params : OptionParams R) : Prop :=
  (0 < S0 params /\ 0 < K params /\ 0 < T params /\ 0 <= sigma params)%R.

Definition Rsum (l : list R) : R := fold_right Rplus 0%R l.


(** The parameters of the example run at the end of the source. *)
Definition example_params : OptionParams R := {|
  S0 := 100%R; K := 105%R; T := 1%R; r := 0.05%R; sigma := 0.2%R;
  option_type := "call"
|}.

(** The engine of that run, [MonteCarloEngine(n_simulations=10000)], on the
    sample generator. *)
Definition example_engine : MonteCarloEngine nat := init (F:=R) 10000 42.

(** The same parameters with another [option_type]. *)
Definition with_option_type {F : Type} (ot : string) (params : OptionParams F)
    : OptionParams F :=
  {| S0 := S0 params; K := K params; T := T params; r := r params;
     sigma := sigma params; option_type := ot |}.

(** The same parameters with another strike. *)
Definition with_strike {F : Type} (k : F) (params : OptionParams F)
    : OptionParams F :=
  {| S0 := S0 params; K := k; T := T params; r := r params;
     sigma := sigma params; option_type := option_type params |}.

(** The same contract in another unit of account: spot and strike are both
    multiplied by [c]. *)
Definition rescale (c : R) (params : OptionParams R) : OptionParams R :=
  {| S0 := (c * S0 params)%R; K := (c * K params)%R; T := T params;
     r := r params; sigma := sigma params;
     option_type := option_type params |}.

(** An engine that holds [n] as its count of simulations and the generator
    [g]. *)
Definition engine_with {G : Type} (n : Z) (g : G) : MonteCarloEngine G :=
  {| n_simulations := n; rng := g |}.

(** The dictionary [price_option] builds from the grid it has simulated,
    as a function of that grid: the statements of the source after its call
    of [simulate_paths], on an engine that holds [n] as its count. *)
Definition pricing_of {F : Type} {ops : FloatOps F} (params : OptionParams F)
    (n : Z) (grid : ndarray F) : PricingResult F :=
  let payoffs := payoffs_of params (terminal_prices grid) in
  let option_price := fmul (discount params) (np_mean payoffs) in
  let std_error := fdiv (np_std payoffs) (np_sqrt (of_int n)) in
  let discounted_std_error := fmul (discount params) std_error in
  let ci_95 := fmul (of_lit (196 # 100)) discounted_std_error in
  {| price := option_price;
     std_error := discounted_std_error;
     ci_lower := fsub option_price ci_95;
     ci_upper := fadd option_price ci_95;
     paths := grid |}.

(** * Facts *)

Local Open Scope nat_scope.

(** ** Lists *)

Lemma update_length {A : Type} (j : nat) (v : A) (l : list A) :
  List.length (update j v l) = List.length l.
Proof.
  revert j; induction l as [|x l IH]; intros [|j]; simpl; auto.
Qed.

Lemma nth_update_eq {A : Type} (j : nat) (v d : A) (l : list A) :
  j < List.length l -> nth j (update j v l) d = v.
Proof.
  revert j; induction l as [|x l IH]; intros [|j] Hj; simpl in *;
    try lia; auto.
  apply IH; lia.
Qed.

Lemma nth_update_neq {A : Type} (i j : nat) (v d : A) (l : list A) :
  i <> j -> nth i (update j v l) d = nth i l d.
Proof.
  revert i j; induction l as [|x l IH]; intros [|i] [|j] Hij; simpl;
    try reflexivity; try congruence.
  apply IH; congruence.
Qed.

(** Two passes over the rows, each pairing a row with its row of variates,
    are one pass. *)
Lemma map2_map2_left {A B : Type} (f g : A -> B -> A) (xs : list A)
    (ys : list B) :
  map2 f (map2 g xs ys) ys = map2 (fun x y => f (g x y) y) xs ys.
Proof.
  revert ys; induction xs as [|x xs IH]; intros [|y ys]; simpl; auto.
  now rewrite IH.
Qed.

Lemma map2_ext_in {A B C : Type} (f g : A -> B -> C) (xs : list A)
    (ys : list B) :
  (forall x y, f x y = g x y) -> map2 f xs ys = map2 g xs ys.
Proof.
  intros H; revert ys; induction xs as [|x xs IH]; intros [|y ys]; simpl;
    auto.
  now rewrite H, IH.
Qed.

Lemma range_S (a : Z) (n : nat) :
  range a (S n) = range a n ++ [(a + Z.of_nat n)%Z].
Proof.
  unfold range. rewrite seq_S, map_app. reflexivity.
Qed.

Lemma for_each_app {A S : Type} (xs ys : list A) (body : S -> A -> result S)
    (s : S) :
  for_each (xs ++ ys) body s =
  match for_each xs body s with
  | Ok s' => for_each ys body s'
  | Raise e => Raise e
  end.
Proof.
  revert s; induction xs as [|x xs IH]; intros s; simpl; auto.
  destruct (body s x); auto.
Qed.

(** ** The generator *)

Section GeneratorFacts.
Context {F G : Type} {rs : RandomSource F G}.

Lemma advance_S (k : nat) (g : G) :
  advance (S k) g = advance k (snd (next_normal g)).
Proof.
  unfold advance. now rewrite Nat.iter_succ_r.
Qed.

Lemma advance_add (a b : nat) (g : G) :
  advance (a + b) g = advance b (advance a g).
Proof.
  unfold advance. rewrite Nat.add_comm. apply Nat.iter_add.
Qed.

Lemma nth_draw_advance (a k : nat) (g : G) :
  nth_draw (advance a g) k = nth_draw g (a + k).
Proof.
  unfold nth_draw. now rewrite advance_add.
Qed.

(** [k] draws are the variates number 0 to [k - 1] of the generator, and
    leave it [k] states further. *)
Lemma draw_list_spec (k : nat) (g : G) :
  draw_list k g = (map (nth_draw g) (seq 0 k), advance k g).
Proof.
  revert g; induction k as [|k IH]; intros g.
  - reflexivity.
  - cbn [draw_list]. destruct (next_normal g) as [z g1] eqn:E.
    rewrite IH. cbn [seq map]. rewrite <- seq_shift, map_map.
    rewrite advance_S, E. cbn [snd]. f_equal. f_equal.
    + unfold nth_draw, advance. cbn. now rewrite E.
    + apply map_ext. intros i.
      change g1 with (snd (z, g1)). rewrite <- E.
      unfold nth_draw. now rewrite advance_S.
Qed.

(** The matrix of draws, entry by entry: row-major order. *)
Lemma draw_rows_spec (n m : nat) (g : G) :
  draw_rows n m g =
  (map (fun i => map (fun j => nth_draw g (i * m + j)) (seq 0 m)) (seq 0 n),
   advance (n * m) g).
Proof.
  revert g; induction n as [|n IH]; intros g.
  - reflexivity.
  - cbn [draw_rows]. rewrite draw_list_spec, IH.
    cbn [seq map]. rewrite <- seq_shift, map_map. f_equal.
    + f_equal. apply map_ext. intros i. apply map_ext. intros j.
      rewrite nth_draw_advance. f_equal. lia.
    + rewrite <- advance_add. f_equal.
Qed.
End GeneratorFacts.

(** ** Columns of an array *)

Section NumpyFacts.
Context {F : Type} {ops : FloatOps F}.

Lemma axis_index_nat (j : nat) (a : ndarray F) :
  j < snd (shape a) -> axis_index (Z.of_nat j) a = Ok j.
Proof.
  intros Hj. unfold axis_index.
  replace ((0 <=? Z.of_nat j)%Z && (Z.of_nat j <? Z.of_nat (snd (shape a)))%Z)
    with true.
  - now rewrite Nat2Z.id.
  - symmetry. apply andb_true_iff. split.
    + apply Z.leb_le. lia.
    + apply Z.ltb_lt. lia.
Qed.

(** [a[:, -1]] is the last column, when there is one. *)
Lemma axis_index_last (a : ndarray F) :
  0 < snd (shape a) -> axis_index (-1) a = Ok (snd (shape a) - 1).
Proof.
  intros Hc. unfold axis_index. cbn [Z.leb Z.compare andb].
  replace ((- Z.of_nat (snd (shape a)) <=? -1)%Z && (-1 <? 0)%Z) with true.
  - do 2 f_equal. lia.
  - symmetry. apply andb_true_iff. split.
    + apply Z.leb_le. lia.
    + reflexivity.
Qed.

(** With no column, [a[:, -1]] is out of bounds. *)
Lemma get_col_last_empty (a : ndarray F) :
  snd (shape a) = 0 -> get_col (-1) a = Raise IndexError.
Proof.
  intros Hc. unfold get_col, axis_index. rewrite Hc. reflexivity.
Qed.

(** Writing a column computed entry-wise from column [j] of the array and
    column [j] of a second array is one pass over the paired rows. *)
Lemma column_update_by_rows (e : F -> F) (k j : nat)
    (rows zrows : list (list F)) :
  map2 (fun row x => update k x row) rows
    (map2 fmul (map (fun row => nth j row fzero) rows)
       (map e (map (fun row => nth j row fzero) zrows))) =
  map2 (fun row z => update k (fmul (nth j row fzero) (e (nth j z fzero))) row)
    rows zrows.
Proof.
  revert zrows; induction rows as [|row rows IH]; intros [|z zrows];
    simpl; auto.
  now rewrite IH.
Qed.

Lemma map2_fst_id (rows zrows : list (list F)) :
  List.length rows = List.length zrows ->
  map2 (fun row _ => row) rows zrows = rows.
Proof.
  revert zrows; induction rows as [|row rows IH]; intros [|z zrows] H;
    simpl in *; try discriminate; auto.
  f_equal. apply IH. lia.
Qed.

Lemma map2_repeat_map_seq {A B C : Type} (f : A -> B -> C) (x : A)
    (h : nat -> B) (a n : nat) :
  map2 f (repeat x n) (map h (seq a n)) = map (fun i => f x (h i)) (seq a n).
Proof.
  revert a; induction n as [|n IH]; intros a; simpl; auto.
  now rewrite IH.
Qed.

Lemma nth_map_seq {A : Type} (f : nat -> A) (n i : nat) (d : A) :
  i < n -> nth i (map f (seq 0 n)) d = f i.
Proof.
  intros Hi. rewrite (nth_indep _ d (f 0)) by now rewrite length_map, length_seq.
  rewrite map_nth, seq_nth; auto.
Qed.
End NumpyFacts.

(** ** The loop of [simulate_paths] *)

Section LoopFacts.
Context {F G : Type} {ops : FloatOps F} {rs : RandomSource F G}.
Variable params : OptionParams F.
Variable dt : F.

(** One iteration, row by row. *)
Lemma gbm_step_rows (Zs paths : ndarray F) (k : nat) :
  1 <= k -> k < snd (shape paths) -> k - 1 < snd (shape Zs) ->
  gbm_step params dt Zs paths (Z.of_nat k) =
  Ok {| shape := shape paths;
        data := map2 (fun row z => row_step params dt z row k)
                  (data paths) (data Zs) |}.
Proof.
  intros H1 Hk Hz. unfold gbm_step, get_col, set_col.
  replace (Z.of_nat k - 1)%Z with (Z.of_nat (k - 1)) by lia.
  rewrite (@axis_index_nat _ (k - 1) paths) by lia.
  rewrite (@axis_index_nat _ (k - 1) Zs) by lia.
  rewrite (@axis_index_nat _ k paths) by lia.
  cbn [bind ret result_Monad]. do 2 f_equal.
  unfold row_step.
  apply (column_update_by_rows (fun x => np_exp (log_return params dt x))).
Qed.

(** The whole loop, row by row: every row goes through its own sequence
    of steps, against its own row of variates. *)
Lemma gbm_loop_rows (Zs paths : ndarray F) (j : nat) :
  List.length (data paths) = List.length (data Zs) ->
  j < snd (shape paths) -> j <= snd (shape Zs) ->
  for_each (range 1 j) (gbm_step params dt Zs) paths =
  Ok {| shape := shape paths;
        data := map2 (fun row z => fold_left (row_step params dt z) (seq 1 j) row)
                  (data paths) (data Zs) |}.
Proof.
  intros Hlen. induction j as [|j IH]; intros Hj Hz.
  - cbn [range seq map for_each fold_left].
    rewrite map2_fst_id by assumption. now destruct paths.
  - rewrite range_S, for_each_app, IH by lia.
    cbn [for_each].
    replace (1 + Z.of_nat j)%Z with (Z.of_nat (S j)) by lia.
    rewrite gbm_step_rows by (cbn [shape]; lia).
    cbn [shape data]. do 2 f_equal.
    rewrite map2_map2_left. apply map2_ext_in. intros row z.
    rewrite seq_S, fold_left_app. reflexivity.
Qed.

(** One row after [k] steps: its first entry is kept, and each of the next
    [k] entries is the one before it times the transition factor. *)
Lemma row_loop_spec (z row0 : list F) (k : nat) :
  k < List.length row0 ->
  let row := fold_left (row_step params dt z) (seq 1 k) row0 in
  List.length row = List.length row0 /\
  nth 0 row fzero = nth 0 row0 fzero /\
  forall t, 1 <= t <= k ->
    nth t row fzero =
    fmul (nth (t - 1) row fzero)
         (np_exp (log_return params dt (nth (t - 1) z fzero))).
Proof.
  induction k as [|k IH]; intros Hk; cbn zeta.
  - cbn [seq fold_left]. repeat split; intros; lia.
  - rewrite seq_S, fold_left_app. cbn [fold_left Nat.add].
    destruct IH as (Hlen & H0 & Hrec); [lia|].
    set (row := fold_left (row_step params dt z) (seq 1 k) row0) in *.
    unfold row_step at 1 2 3 4. cbn [Nat.sub]. rewrite Nat.sub_0_r.
    repeat split.
    + now rewrite update_length.
    + rewrite nth_update_neq by lia. exact H0.
    + intros t Ht. destruct (Nat.eq_dec t (S k)) as [->|Hne].
      * rewrite nth_update_eq by lia. cbn [Nat.sub]. rewrite Nat.sub_0_r.
        rewrite nth_update_neq by lia. reflexivity.
      * rewrite !nth_update_neq by lia. apply Hrec. lia.
Qed.
End LoopFacts.

(** ** [simulate_paths], outcome by outcome *)

Section SimulateFacts.
Context {F G : Type} {ops : FloatOps F} {rs : RandomSource F G}.
Variable params : OptionParams F.


(** A negative count is refused by the generator, and nothing has been
    drawn. *)
Lemma simulate_paths_negative (n_steps : Z) (self : MonteCarloEngine G) :
  (n_steps <> 0)%Z -> (n_simulations self < 0 \/ n_steps < 0)%Z ->
  simulate_paths params n_steps self = (Raise ValueError, self).
Proof.
  intros Hnz Hneg. unfold simulate_paths, py_truediv, lift.
  cbn [bind method_Monad self_n_simulations].
  destruct (Z.eqb_spec n_steps 0) as [|_]; [contradiction|].
  cbn [self_n_simulations]. unfold self_n_simulations, rng_standard_normal.
  replace ((n_simulations self <? 0)%Z || (n_steps <? 0)%Z) with true;
    [reflexivity|].
  symmetry. apply orb_true_iff.
  destruct Hneg; [left|right]; apply Z.ltb_lt; assumption.
Qed.

(** In every other case the grid is returned: row [i] is [path_row i], and
    the generator has moved by one draw per entry of the matrix of
    variates. *)
Lemma simulate_paths_eq (n_steps : Z) (self : MonteCarloEngine G) :
  (0 <= n_simulations self)%Z -> (1 <= n_steps)%Z ->
  let n := Z.to_nat (n_simulations self) in
  let m := Z.to_nat n_steps in
  let dt := fdiv (T params) (of_int n_steps) in
  simulate_paths params n_steps self =
  (Ok {| shape := (n, S m);
         data := map (path_row params dt (rng self) m) (seq 0 n) |},
   {| n_simulations := n_simulations self;
      rng := advance (n * m) (rng self) |}).
Proof.
  intros Hn Hm n m dt. unfold simulate_paths, py_truediv, lift.
  cbn [bind method_Monad].
  destruct (Z.eqb_spec n_steps 0) as [E|_]; [lia|].
  unfold self_n_simulations, rng_standard_normal.
  replace ((n_simulations self <? 0)%Z || (n_steps <? 0)%Z) with false.
  2:{ symmetry. apply orb_false_iff. split; apply Z.ltb_ge; lia. }
  rewrite draw_rows_spec. fold n m.
  unfold np_zeros.
  replace ((n_simulations self <? 0)%Z || (n_steps + 1 <? 0)%Z) with false.
  2:{ symmetry. apply orb_false_iff. split; apply Z.ltb_ge; lia. }
  replace (Z.to_nat (n_steps + 1)) with (S m) by lia. fold n.
  unfold fill_col.
  rewrite (@axis_index_nat _ 0) by (cbn [shape snd]; lia).
  cbn [bind ret result_Monad shape data].
  rewrite gbm_loop_rows; cbn [shape data snd].
  - fold dt. do 3 f_equal.
    rewrite map_repeat, map2_repeat_map_seq. reflexivity.
  - now rewrite length_map, repeat_length, length_map, length_seq.
  - lia.
  - lia.
Qed.
End SimulateFacts.

(** A run small enough to write down: two paths of two steps on the sample
    generator, whose variates 0 and 1 go to the first path and 2 and 3 to
    the second. *)
Example simulate_paths_two_by_two :
  let f := fun k : nat =>
    exp (log_return example_params (1 / 2)%R (INR k)) in
  simulate_paths example_params 2 (init (F:=R) 2 42) =
  (Ok {| shape := (2, 3);
         data := [[100; 100 * f 0%nat; 100 * f 0%nat * f 1%nat];
                  [100; 100 * f 2%nat; 100 * f 2%nat * f 3%nat]]%R |},
   {| n_simulations := 2; rng := 4 |}).
Proof. reflexivity. Qed.

(** ** The rows of the grid *)

Section GridFacts.
Context {F G : Type} {ops : FloatOps F} {rs : RandomSource F G}.
Variable params : OptionParams F.

Lemma path_row_spec (dt : F) (g : G) (m i : nat) :
  let row := path_row params dt g m i in
  List.length row = S m /\
  nth 0 row fzero = S0 params /\
  forall t, 1 <= t <= m ->
    nth t row fzero =
    fmul (nth (t - 1) row fzero)
         (np_exp (log_return params dt (nth_draw g (i * m + (t - 1))))).
Proof.
  cbn zeta. unfold path_row.
  set (z := map (fun j => nth_draw g (i * m + j)) (seq 0 m)).
  set (row0 := update 0 (S0 params) (repeat fzero (S m))).
  assert (Hlen0 : List.length row0 = S m).
  { unfold row0. now rewrite update_length, repeat_length. }
  destruct (@row_loop_spec F ops params dt z row0 m) as (Hlen & H0 & Hrec);
    [lia|].
  repeat split.
  - congruence.
  - rewrite H0. reflexivity.
  - intros t Ht. rewrite (Hrec t Ht). do 3 f_equal.
    unfold z.
    apply (nth_map_seq (fun j => nth_draw g (i * m + j))). lia.
Qed.

Lemma get_col_last (a : ndarray F) :
  0 < snd (shape a) -> get_col (-1) a = Ok (terminal_prices a).
Proof.
  intros Hc. unfold get_col. now rewrite axis_index_last.
Qed.

(** [price_option] on an engine whose count of simulations is not
    negative: the dictionary it returns, and the engine it leaves. *)
Lemma price_option_eq (self : MonteCarloEngine G) :
  (0 <= n_simulations self)%Z ->
  let n := Z.to_nat (n_simulations self) in
  let m := Z.to_nat 252 in
  let dt := fdiv (T params) (of_int 252) in
  let grid := {| shape := (n, S m);
                 data := map (path_row params dt (rng self) m) (seq 0 n) |} in
  let payoffs := payoffs_of params (terminal_prices grid) in
  let p := fmul (discount params) (np_mean payoffs) in
  let se := fmul (discount params)
              (fdiv (np_std payoffs) (np_sqrt (of_int (n_simulations self)))) in
  price_option params self =
  (Ok {| price := p;
         std_error := se;
         ci_lower := fsub p (fmul (of_lit (196 # 100)) se);
         ci_upper := fadd p (fmul (of_lit (196 # 100)) se);
         paths := grid |},
   {| n_simulations := n_simulations self;
      rng := advance (n * m) (rng self) |}).
Proof.
  intros Hn n m dt grid payoffs p se. unfold price_option.
  cbn [bind method_Monad].
  rewrite simulate_paths_eq by lia.
  fold n m dt grid. unfold lift.
  rewrite get_col_last by (unfold grid; cbn [shape snd]; lia).
  reflexivity.
Qed.

(** With a negative count of simulations [price_option] raises what
    [simulate_paths] raises. *)
Lemma price_option_negative (self : MonteCarloEngine G) :
  (n_simulations self < 0)%Z ->
  price_option params self = (Raise ValueError, self).
Proof.
  intros Hn. unfold price_option. cbn [bind method_Monad].
  rewrite simulate_paths_negative by lia. reflexivity.
Qed.
End GridFacts.

(** ** Exact arithmetic: sums, means and deviations *)

Section RealFacts.
Local Open Scope R_scope.

Lemma fold_left_Rplus (l : list R) (a : R) :
  fold_left Rplus l a = a + Rsum l.
Proof.
  revert a; induction l as [|x l IH]; intros a; simpl.
  - lra.
  - rewrite IH. unfold Rsum. lra.
Qed.

Lemma np_sum_Rsum (l : list R) : np_sum l = Rsum l.
Proof.
  unfold np_sum. rewrite fold_left_Rplus. unfold fzero. simpl. lra.
Qed.

Lemma np_mean_Rsum (l : list R) :
  np_mean l = Rsum l / INR (List.length l).
Proof.
  unfold np_mean. rewrite np_sum_Rsum. simpl. now rewrite <- INR_IZR_INZ.
Qed.



Lemma Rsum_constant {A : Type} (c : R) (l : list A) :
  Rsum (map (fun _ => c) l) = INR (List.length l) * c.
Proof.
  induction l as [|x l IH].
  - simpl. lra.
  - cbn [map List.length]. rewrite S_INR. simpl. rewrite IH. lra.
Qed.

Lemma Rinv_nonneg (x : R) : 0 <= x -> 0 <= / x.
Proof.
  intros [Hx|<-].
  - left. now apply Rinv_0_lt_compat.
  - rewrite Rinv_0. lra.
Qed.


(** The mean of a sample whose entries are all [c]. *)
Lemma np_mean_constant {A : Type} (c : R) (l : list A) :
  l <> [] -> np_mean (map (fun _ => c) l) = c.
Proof.
  intros Hl. rewrite np_mean_Rsum, Rsum_constant, length_map.
  assert (0 < INR (List.length l)).
  { apply lt_0_INR. destruct l; [congruence | simpl; lia]. }
  field. lra.
Qed.

Lemma np_std_constant {A : Type} (c : R) (l : list A) :
  l <> [] -> np_std (map (fun _ => c) l) = 0.
Proof.
  intros Hl. unfold np_std. cbn zeta.
  rewrite (np_mean_constant c Hl), map_map.
  rewrite (map_ext _ (fun _ => 0)) by (intros; simpl; ring).
  rewrite (np_mean_constant 0 Hl). apply sqrt_0.
Qed.




End RealFacts.

(** ** The matrix of variates *)

Section DrawFacts.
Context {F G : Type} {ops : FloatOps F} {rs : RandomSource F G}.

Lemma rng_standard_normal_eq (n m : Z) (self : MonteCarloEngine G) :
  (0 <= n)%Z -> (0 <= m)%Z ->
  rng_standard_normal n m self =
  (Ok {| shape := (Z.to_nat n, Z.to_nat m);
         data := map (fun i => map (fun j => nth_draw (rng self)
                                               (i * Z.to_nat m + j))
                                (seq 0 (Z.to_nat m)))
                   (seq 0 (Z.to_nat n)) |},
   {| n_simulations := n_simulations self;
      rng := advance (Z.to_nat n * Z.to_nat m) (rng self) |}).
Proof.
  intros Hn Hm. unfold rng_standard_normal.
  replace ((n <? 0)%Z || (m <? 0)%Z) with false.
  - now rewrite draw_rows_spec.
  - symmetry. apply orb_false_iff. split; apply Z.ltb_ge; lia.
Qed.

Lemma entry_map_seq (f : nat -> nat -> F) (s : nat * nat) (n m i j : nat) :
  i < n -> j < m ->
  entry {| shape := s;
           data := map (fun i => map (f i) (seq 0 m)) (seq 0 n) |} i j =
  f i j.
Proof.
  intros Hi Hj. unfold entry. cbn [data].
  rewrite (nth_map_seq (fun i => map (f i) (seq 0 m))) by assumption.
  now apply nth_map_seq.
Qed.

Lemma entry_rows (f : nat -> list F) (s : nat * nat) (n i t : nat) :
  i < n ->
  entry {| shape := s; data := map f (seq 0 n) |} i t = nth t (f i) fzero.
Proof.
  intros Hi. unfold entry. cbn [data]. now rewrite nth_map_seq.
Qed.

(** The grid is a function of the variates the call draws, not of the
    state of the generator otherwise. *)
Lemma path_row_draws (params : OptionParams F) (dt : F) (g1 g2 : G)
    (n m i : nat) :
  (forall k, k < n * m -> nth_draw g1 k = nth_draw g2 k) ->
  i < n -> path_row params dt g1 m i = path_row params dt g2 m i.
Proof.
  intros Hdraws Hi. unfold path_row. f_equal. f_equal.
  apply map_ext_in. intros j Hj. apply in_seq in Hj. apply Hdraws. nia.
Qed.
End DrawFacts.

(** ** No volatility *)

Section DegenerateVolatility.
Context {G : Type} {rs : RandomSource R G}.
Variable params : OptionParams R.
Hypothesis sigma_zero : sigma params = 0%R.
Local Open Scope R_scope.

Lemma log_return_sigma_zero (dt z : R) :
  log_return params dt z = r params * dt.
Proof.
  unfold log_return. rewrite sigma_zero. simpl. ring.
Qed.

(** Every entry of a row is the drift alone. *)
Lemma path_row_sigma_zero (dt : R) (g : G) (m i t : nat) :
  (t <= m)%nat ->
  nth t (path_row params dt g m i) fzero =
  S0 params * exp (r params * dt * INR t).
Proof.
  destruct (path_row_spec params dt g m i) as (_ & H0 & Hrec).
  induction t as [|t IH]; intros Ht.
  - rewrite H0. simpl. rewrite Rmult_0_r, exp_0. ring.
  - rewrite Hrec by lia. cbn [Nat.sub]. rewrite Nat.sub_0_r.
    rewrite IH by lia. rewrite log_return_sigma_zero, S_INR.
    simpl. rewrite Rmult_assoc, <- exp_plus. do 2 f_equal. ring.
Qed.

(** The last entry of a row, for [dt = T / n_steps]. *)
Lemma path_row_terminal (n_steps : Z) (g : G) (i : nat) :
  (1 <= n_steps)%Z ->
  nth (Z.to_nat n_steps)
      (path_row params (fdiv (T params) (of_int n_steps)) g
         (Z.to_nat n_steps) i) fzero =
  S0 params * exp (r params * T params).
Proof.
  intros Hm. rewrite path_row_sigma_zero by lia. do 2 f_equal.
  rewrite INR_IZR_INZ, Z2Nat.id by lia. simpl.
  assert (0 < IZR n_steps) by (apply IZR_lt; lia).
  field. lra.
Qed.

(** The last column of the grid is constant. *)
Lemma terminal_prices_sigma_zero (n_steps : Z) (g : G) (n : nat) :
  (1 <= n_steps)%Z ->
  terminal_prices
    {| shape := (n, S (Z.to_nat n_steps));
       data := map (path_row params (fdiv (T params) (of_int n_steps)) g
                      (Z.to_nat n_steps)) (seq 0 n) |} =
  map (fun _ => S0 params * exp (r params * T params)) (seq 0 n).
Proof.
  intros Hm. unfold terminal_prices. cbn [shape snd data Nat.sub].
  rewrite Nat.sub_0_r, map_map. apply map_ext. intros i.
  now apply path_row_terminal.
Qed.

(** The payoffs of equal terminal prices are equal. *)
Lemma payoffs_of_constant {A : Type} (c : R) (l : list A) :
  payoffs_of params (map (fun _ => c) l) =
  map (fun _ => if String.eqb (option_type params) "call"
                then Rmax (c - K params) 0
                else Rmax (K params - c) 0) l.
Proof.
  unfold payoffs_of.
  destruct (String.eqb (option_type params) "call"); now rewrite map_map.
Qed.
End DegenerateVolatility.

(** * The claims *)

(** C1. For every parameters and every engine whose simulation yields a
    grid, [price_option] returns a result whose [paths] is that grid and
    whose [price] is [exp(-r*T) * mean(payoffs)], the payoffs being
    [max(S_T - K, 0)] entry-wise for a ['call'] and [max(K - S_T, 0)] for a
    ['put'], where [S_T] is the last column of the grid. *)
Theorem price_option_discounted_mean_payoff {F G : Type} {ops : FloatOps F}
    {rs : RandomSource F G} (params : OptionParams F)
    (self : MonteCarloEngine G) :
  (0 <= n_simulations self)%Z ->
  exists grid res self',
    simulate_paths params 252 self = (Ok grid, self') /\
    price_option params self = (Ok res, self') /\
    paths res = grid /\
    (option_type params = "call"%string ->
     price res =
     fmul (np_exp (fmul (fneg (r params)) (T params)))
          (np_mean (map (fun s => np_maximum (fsub s (K params)) (of_int 0))
                        (terminal_prices grid)))) /\
    (option_type params = "put"%string ->
     price res =
     fmul (np_exp (fmul (fneg (r params)) (T params)))
          (np_mean (map (fun s => np_maximum (fsub (K params) s) (of_int 0))
                        (terminal_prices grid)))).
Proof.
  intros Hn. eexists _, _, _.
  split; [apply simulate_paths_eq; lia|].
  split; [apply price_option_eq; lia|].
  split; [reflexivity|].
  cbn [price]. unfold payoffs_of, discount.
  split; intros ->; reflexivity.
Qed.

Lemma price_option_discounted_mean_payoff_witness :
  (0 <= n_simulations example_engine)%Z /\
  exists res self',
    price_option example_params example_engine = (Ok res, self') /\
    price res =
    (exp (Ropp 0.05 * 1) *
     np_mean (map (fun s => Rmax (s - 105) 0) (terminal_prices (paths res))))%R.
Proof.
  assert (Hn : (0 <= n_simulations example_engine)%Z) by (simpl; lia).
  split; [exact Hn|].
  destruct (price_option_discounted_mean_payoff example_params example_engine Hn)
    as (grid & res & self' & _ & Hres & Hgrid & Hcall & _).
  exists res, self'. split; [exact Hres|].
  rewrite Hgrid. exact (Hcall eq_refl).
Defined.







(** C6. Over exact arithmetic, with [sigma = 0], otherwise valid parameters
    and [n_simulations >= 1]: every terminal price of the grid
    [simulate_paths] returns, for any [n_steps >= 1], is [S0 * exp(r*T)];
    [price_option] returns the discounted intrinsic payoff,
    [exp(-r*T) * max(S0*exp(r*T) - K, 0)] for a call and
    [exp(-r*T) * max(K - S0*exp(r*T), 0)] for a put, with [std_error = 0].
    The functions are the general ones: nothing in them tests [sigma]. *)
Theorem zero_volatility_is_deterministic {G : Type}
    {rs : RandomSource R G} (params : OptionParams R)
    (self : MonteCarloEngine G) :
  valid_params params -> sigma params = 0%R ->
  (1 <= n_simulations self)%Z ->
  let S_T := (S0 params * exp (r params * T params))%R in
  (forall n_steps, (1 <= n_steps)%Z ->
     exists grid self',
       simulate_paths params n_steps self = (Ok grid, self') /\
       List.length (terminal_prices grid) = Z.to_nat (n_simulations self) /\
       Forall (fun s => s = S_T) (terminal_prices grid)) /\
  exists res self',
    price_option params self = (Ok res, self') /\
    List.length (terminal_prices (paths res)) =
      Z.to_nat (n_simulations self) /\
    Forall (fun s => s = S_T) (terminal_prices (paths res)) /\
    (option_type params = "call"%string ->
     price res = exp (- r params * T params) * Rmax (S_T - K params) 0)%R /\
    (option_type params = "put"%string ->
     price res = exp (- r params * T params) * Rmax (K params - S_T) 0)%R /\
    std_error res = 0%R.
Proof.
  intros _ Hsigma Hn S_T.
  assert (Hconst : forall (n : nat),
            Forall (fun s => s = S_T) (map (fun _ : nat => S_T) (seq 0 n))).
  { intros n. apply Forall_forall. intros s Hs. apply in_map_iff in Hs.
    now destruct Hs as (_ & <- & _). }
  assert (Hne : seq 0 (Z.to_nat (n_simulations self)) <> []).
  { intros E. apply (f_equal (@List.length nat)) in E.
    rewrite length_seq in E. simpl in E. lia. }
  split.
  - intros n_steps Hm. eexists _, _.
    split; [apply simulate_paths_eq; lia|].
    rewrite terminal_prices_sigma_zero by assumption. fold S_T.
    split; [now rewrite length_map, length_seq | apply Hconst].
  - eexists _, _.
    split; [apply price_option_eq; lia|].
    cbn [paths price std_error]. cbn zeta.
    rewrite (@terminal_prices_sigma_zero _ _ params Hsigma 252) by lia.
    fold S_T. rewrite payoffs_of_constant.
    split; [now rewrite length_map, length_seq|].
    split; [apply Hconst|].
    rewrite np_mean_constant, np_std_constant by assumption.
    change (discount params) with (exp (- r params * T params))%R.
    split; [|split].
    + intros ->. reflexivity.
    + intros ->. reflexivity.
    + simpl. unfold Rdiv. ring.
Qed.

Lemma zero_volatility_is_deterministic_witness :
  let params := {| S0 := 100%R; K := 105%R; T := 1%R; r := 0.05%R;
                   sigma := 0%R; option_type := "call" |} in
  (valid_params params /\ sigma params = 0%R /\
   (1 <= n_simulations example_engine)%Z) /\
  exists res self',
    price_option params example_engine = (Ok res, self') /\
    price res = (exp (Ropp 0.05 * 1) * Rmax (100 * exp (0.05 * 1) - 105) 0)%R /\
    std_error res = 0%R.
Proof.
  intros params.
  assert (Hv : valid_params params).
  { unfold valid_params, params. simpl. lra. }
  assert (Hs : sigma params = 0%R) by reflexivity.
  assert (Hn : (1 <= n_simulations example_engine)%Z) by (simpl; lia).
  split; [split; [exact Hv | split; [exact Hs | exact Hn]]|].
  destruct (zero_volatility_is_deterministic example_engine Hv Hs Hn)
    as (_ & res & self' & Hrun & _ & _ & Hcall & _ & Hse).
  exists res, self'. split; [exact Hrun|]. split; [|exact Hse].
  exact (Hcall eq_refl).
Defined.





(** Two engines that hold the same count, and whose generators yield the
    same variates as far as [price_option] draws them, return the same
    result. *)
Lemma price_option_draws {F G : Type} {ops : FloatOps F}
    {rs : RandomSource F G} (params : OptionParams F)
    (self1 self2 : MonteCarloEngine G) :
  n_simulations self1 = n_simulations self2 ->
  (0 <= n_simulations self1)%Z ->
  (forall k, k < Z.to_nat (n_simulations self1) * Z.to_nat 252 ->
     nth_draw (rng self1) k = nth_draw (rng self2) k) ->
  fst (price_option params self1) = fst (price_option params self2).
Proof.
  intros Hsame Hn Hdraws.
  rewrite !price_option_eq by lia. cbn [fst]. rewrite <- Hsame.
  assert (Hgrid : map (path_row params (fdiv (T params) (of_int 252))
                         (rng self1) (Z.to_nat 252))
                    (seq 0 (Z.to_nat (n_simulations self1))) =
                  map (path_row params (fdiv (T params) (of_int 252))
                         (rng self2) (Z.to_nat 252))
                    (seq 0 (Z.to_nat (n_simulations self1)))).
  { apply map_ext_in. intros i Hi. apply in_seq in Hi.
    apply path_row_draws with (n := Z.to_nat (n_simulations self1));
      [assumption | lia]. }
  now rewrite Hgrid.
Qed.



(** ** Consecutive calls on the sample generator *)

Lemma counter_advance (k g : nat) :
  advance (rs := counter_source) k g = k + g.
Proof.
  induction k as [|k IH].
  - reflexivity.
  - change (advance (S k) g) with (S (advance (rs := counter_source) k g)).
    now rewrite IH.
Qed.

Lemma counter_nth_draw (g k : nat) :
  nth_draw (rs := counter_source) g k = INR (k + g).
Proof.
  unfold nth_draw. rewrite counter_advance. reflexivity.
Qed.

(** On the sample generator the transition factor tells two variates
    apart. *)
Lemma example_log_return_injective (dt z1 z2 : R) :
  (0 < dt)%R ->
  np_exp (log_return example_params dt z1) =
  np_exp (log_return example_params dt z2) ->
  z1 = z2.
Proof.
  intros Hdt H. apply exp_inv in H. unfold log_return in H. simpl in H.
  assert (Hs : (0 < sqrt dt)%R) by now apply sqrt_lt_R0.
  nra.
Qed.

(** A second call of [price_option] on the same engine returns another
    grid: its first row already differs after one step. *)
Lemma consecutive_calls_differ (self : MonteCarloEngine nat) :
  (1 <= n_simulations self)%Z ->
  fst (price_option example_params self) <>
  fst (price_option example_params (snd (price_option example_params self))).
Proof.
  intros Hn H. rewrite (price_option_eq example_params self) in H by lia.
  cbn [snd fst] in H.
  rewrite price_option_eq in H by (cbn [n_simulations]; lia).
  cbn [fst n_simulations rng] in H.
  set (n := Z.to_nat (n_simulations self)) in *.
  set (m := Z.to_nat 252) in *.
  set (dt := fdiv (T example_params) (of_int 252)) in *.
  assert (Hm : 1 <= m) by (unfold m; lia).
  assert (Hn' : 1 <= n) by (unfold n; lia).
  apply (f_equal (fun x => match x with
                           | Ok res => nth 0 (data (paths res)) []
                           | Raise _ => []
                           end)) in H.
  cbn [paths data] in H.
  rewrite !(nth_map_seq (path_row example_params dt _ m)) in H by lia.
  apply (f_equal (fun row => nth 1 row fzero)) in H.
  destruct (path_row_spec example_params dt (rng self) m 0)
    as (_ & H0 & Hrec).
  destruct (path_row_spec example_params dt (advance (n * m) (rng self)) m 0)
    as (_ & H0' & Hrec').
  rewrite (Hrec 1), (Hrec' 1) in H by lia.
  cbn [Nat.sub Nat.mul Nat.add] in H. rewrite H0, H0' in H.
  rewrite !counter_nth_draw, counter_advance in H.
  assert (Hdt : (0 < dt)%R).
  { unfold dt. simpl. lra. }
  assert (E : np_exp (log_return example_params dt (INR (0 + rng self))) =
              np_exp (log_return example_params dt
                        (INR (0 + (n * m + rng self))))).
  { simpl in H. simpl. lra. }
  apply example_log_return_injective in E; [|exact Hdt].
  apply INR_eq in E. nia.
Qed.

(** C9. A call of [simulate_paths] that returns leaves the engine with the
    same [n_simulations] and with its generator advanced by exactly
    [n_simulations * n_steps] draws, and so does [price_option], at 252
    steps.  A second call with the same arguments on the same engine
    therefore draws other variates: the first call takes the variates number
    [0] to [n*m - 1] of the generator, the second one the variates number
    [n*m] to [2*n*m - 1].  The result is a function of the arguments and of
    the generator's state, not of the arguments alone: on the sample
    generator two consecutive calls of [price_option] return different
    results. *)
Theorem simulate_paths_advances_generator {F G : Type} {ops : FloatOps F}
    {rs : RandomSource F G} (params : OptionParams F) (n_steps : Z)
    (self : MonteCarloEngine G) :
  (0 <= n_simulations self)%Z -> (1 <= n_steps)%Z ->
  let n := Z.to_nat (n_simulations self) in
  let m := Z.to_nat n_steps in
  (exists Z1 grid1 self1 Z2 grid2 self2,
     rng_standard_normal (n_simulations self) n_steps self = (Ok Z1, self1) /\
     simulate_paths params n_steps self = (Ok grid1, self1) /\
     n_simulations self1 = n_simulations self /\
     rng self1 = advance (n * m) (rng self) /\
     rng_standard_normal (n_simulations self) n_steps self1 = (Ok Z2, self2) /\
     simulate_paths params n_steps self1 = (Ok grid2, self2) /\
     n_simulations self2 = n_simulations self /\
     rng self2 = advance (n * m + n * m) (rng self) /\
     forall i j, i < n -> j < m ->
       i * m + j < n * m /\
       entry Z1 i j = nth_draw (rng self) (i * m + j) /\
       entry Z2 i j = nth_draw (rng self) (n * m + (i * m + j))) /\
  (exists res self1,
     price_option params self = (Ok res, self1) /\
     n_simulations self1 = n_simulations self /\
     rng self1 = advance (n * Z.to_nat 252) (rng self)) /\
  fst (price_option example_params example_engine) <>
  fst (price_option example_params
         (snd (price_option example_params example_engine))).
Proof.
  intros Hn Hm n m. split; [|split].
  - eexists _, _, _, _, _, _.
    split; [apply rng_standard_normal_eq; lia|].
    split; [apply simulate_paths_eq; lia|].
    cbn [n_simulations rng]. fold n m.
    split; [reflexivity|]. split; [reflexivity|].
    split; [apply rng_standard_normal_eq; cbn [n_simulations]; lia|].
    split.
    { rewrite simulate_paths_eq by (cbn [n_simulations]; lia).
      cbn [n_simulations rng]. reflexivity. }
    cbn [n_simulations rng]. fold n m.
    split; [reflexivity|].
    split; [now rewrite advance_add|].
    intros i j Hi Hj. split; [nia|]. split.
    + now apply (entry_map_seq (fun i j => nth_draw (rng self) (i * m + j))).
    + rewrite (entry_map_seq
                 (fun i j => nth_draw (advance (n * m) (rng self)) (i * m + j)))
        by assumption.
      apply nth_draw_advance.
  - eexists _, _. split; [apply price_option_eq; lia|].
    cbn [n_simulations rng]. split; reflexivity.
  - apply consecutive_calls_differ. cbn. lia.
Qed.

Lemma simulate_paths_advances_generator_witness :
  ((0 <= n_simulations example_engine)%Z /\ (1 <= 252)%Z) /\
  exists res self1,
    price_option example_params example_engine = (Ok res, self1) /\
    n_simulations self1 = n_simulations example_engine /\
    rng self1 =
      advance (Z.to_nat (n_simulations example_engine) * Z.to_nat 252)
        (rng example_engine).
Proof.
  assert (Hn : (0 <= n_simulations example_engine)%Z) by (cbn; lia).
  assert (Hm : (1 <= 252)%Z) by lia.
  split; [split; assumption|].
  destruct (simulate_paths_advances_generator example_params example_engine
              Hn Hm) as (_ & Hprice & _).
  exact Hprice.
Defined.

(** ** [option_type] *)

Lemma payoffs_of_not_call {F : Type} {ops : FloatOps F}
    (params : OptionParams F) (S_T : list F) :
  option_type params <> "call"%string ->
  payoffs_of params S_T =
  map (fun s => np_maximum (fsub (K params) s) fzero) S_T.
Proof.
  intros Hne. unfold payoffs_of.
  apply String.eqb_neq in Hne. now rewrite Hne.
Qed.

(** [simulate_paths] does not read [option_type]. *)
Lemma simulate_paths_with_option_type {F G : Type} {ops : FloatOps F}
    {rs : RandomSource F G} (ot : string) (params : OptionParams F)
    (n_steps : Z) (self : MonteCarloEngine G) :
  simulate_paths (with_option_type ot params) n_steps self =
  simulate_paths params n_steps self.
Proof. reflexivity. Qed.

(** Any [option_type] but ['call'] takes the branch of ['put']. *)
Lemma price_option_put_branch {F G : Type} {ops : FloatOps F}
    {rs : RandomSource F G} (params : OptionParams F)
    (self : MonteCarloEngine G) :
  option_type params <> "call"%string ->
  price_option (with_option_type "put" params) self =
  price_option params self.
Proof.
  intros Hne. unfold price_option. cbn [bind method_Monad].
  rewrite simulate_paths_with_option_type.
  destruct (simulate_paths params 252 self) as [[grid|e] self1];
    [|reflexivity].
  unfold lift. destruct (get_col (-1) grid) as [S_T|e]; [|reflexivity].
  rewrite (payoffs_of_not_call params) by assumption.
  rewrite (payoffs_of_not_call (with_option_type "put" params))
    by (cbn [option_type with_option_type]; discriminate).
  reflexivity.
Qed.

(** C10. For every [option_type] other than the exact string ['call'], be it
    ['put'], ['Call'] or ['banana'], [price_option] raises nothing on account
    of it and prices a put: on an engine whose count of simulations is not
    negative it returns a result whose price is the discounted mean of
    [max(K - S_T, 0)], the very outcome it has for ['put']. *)
Theorem option_type_not_validated {F G : Type} {ops : FloatOps F}
    {rs : RandomSource F G} (params : OptionParams F)
    (self : MonteCarloEngine G) :
  option_type params <> "call"%string ->
  (0 <= n_simulations self)%Z ->
  exists res self',
    price_option params self = (Ok res, self') /\
    price res =
      fmul (np_exp (fmul (fneg (r params)) (T params)))
           (np_mean (map (fun s => np_maximum (fsub (K params) s) (of_int 0))
                         (terminal_prices (paths res)))) /\
    price_option (with_option_type "put" params) self = (Ok res, self').
Proof.
  intros Hne Hn. eexists _, _.
  split; [apply price_option_eq; lia|].
  cbn [price paths]. rewrite payoffs_of_not_call by assumption.
  split; [reflexivity|].
  rewrite price_option_put_branch, price_option_eq by assumption.
  now rewrite payoffs_of_not_call by assumption.
Qed.

Lemma option_type_not_validated_witness :
  let params := with_option_type "banana" example_params in
  (option_type params <> "call"%string /\
   (0 <= n_simulations example_engine)%Z) /\
  exists res self',
    price_option params example_engine = (Ok res, self') /\
    price_option (with_option_type "put" params) example_engine =
      (Ok res, self').
Proof.
  intros params.
  assert (Hne : option_type params <> "call"%string)
    by (cbn [option_type with_option_type params]; discriminate).
  assert (Hn : (0 <= n_simulations example_engine)%Z) by (cbn; lia).
  split; [split; assumption|].
  destruct (option_type_not_validated params example_engine Hne Hn)
    as (res & self' & Hrun & _ & Hput).
  exists res, self'. split; assumption.
Defined.

(** * Further properties of the engine *)

(** ** What the grid depends on *)

Section GridDependencies.
Context {F G : Type} {ops : FloatOps F} {rs : RandomSource F G}.

Lemma path_row_shift (params : OptionParams F) (dt : F) (g : G)
    (a m i : nat) :
  path_row params dt (advance (a * m) g) m i =
  path_row params dt g m (a + i).
Proof.
  unfold path_row. do 2 f_equal. apply map_ext. intros j.
  rewrite nth_draw_advance. f_equal. lia.
Qed.

Lemma map_seq_shift {A : Type} (f : nat -> A) (a n : nat) :
  map f (seq a n) = map (fun i => f (a + i)) (seq 0 n).
Proof.
  revert a; induction n as [|n IH]; intros a.
  - reflexivity.
  - cbn [seq map]. rewrite Nat.add_0_r. f_equal.
    rewrite IH, <- seq_shift, map_map.
    apply map_ext. intros i. f_equal. lia.
Qed.
End GridDependencies.

(** ** [price_option] as a reduction of the grid *)

Section Reduction.
Context {F G : Type} {ops : FloatOps F} {rs : RandomSource F G}.

(** [simulate_paths] reads [S0], [T], [r] and [sigma] only. *)
Lemma simulate_paths_frame (params1 params2 : OptionParams F) (n_steps : Z)
    (self : MonteCarloEngine G) :
  S0 params1 = S0 params2 -> T params1 = T params2 ->
  r params1 = r params2 -> sigma params1 = sigma params2 ->
  simulate_paths params1 n_steps self = simulate_paths params2 n_steps self.
Proof.
  destruct params1 as [s1 k1 t1 r1 v1 o1], params2 as [s2 k2 t2 r2 v2 o2].
  cbn [S0 T r sigma]. intros -> -> -> ->. reflexivity.
Qed.

(** A grid that [simulate_paths] returns at 252 steps has one row per
    simulation and a last column. *)
Lemma simulate_paths_252_grid (params : OptionParams F)
    (self self' : MonteCarloEngine G) (grid : ndarray F) :
  simulate_paths params 252 self = (Ok grid, self') ->
  (0 <= n_simulations self)%Z /\
  0 < snd (shape grid) /\
  List.length (terminal_prices grid) = Z.to_nat (n_simulations self) /\
  n_simulations self' = n_simulations self.
Proof.
  intros H. destruct (Z.ltb_spec (n_simulations self) 0) as [Hneg|Hpos].
  - rewrite simulate_paths_negative in H by lia. discriminate.
  - rewrite simulate_paths_eq in H by lia.
    injection H as <- <-. cbn [shape snd n_simulations].
    split; [assumption|]. split; [lia|]. split; [|reflexivity].
    unfold terminal_prices. cbn [data].
    now rewrite !length_map, length_seq.
Qed.

(** Whatever the strike and the option type, [price_option] reduces the
    grid that [simulate_paths] returns for the same [S0], [T], [r] and
    [sigma]. *)
Lemma price_option_reduces_grid (params params0 : OptionParams F)
    (self self' : MonteCarloEngine G) (grid : ndarray F) :
  S0 params = S0 params0 -> T params = T params0 ->
  r params = r params0 -> sigma params = sigma params0 ->
  simulate_paths params0 252 self = (Ok grid, self') ->
  price_option params self =
  (Ok (pricing_of params (n_simulations self) grid), self').
Proof.
  intros HS HT Hr Hv Hrun.
  destruct (simulate_paths_252_grid _ _ Hrun) as (_ & Hcol & _ & Hn).
  unfold price_option. cbn [bind method_Monad].
  rewrite (simulate_paths_frame params params0) by assumption.
  rewrite Hrun. unfold lift. rewrite get_col_last by assumption.
  unfold self_n_simulations. rewrite Hn. reflexivity.
Qed.

(** The run of [simulate_paths] at 252 steps, when the count of simulations
    is not negative. *)
Lemma simulate_paths_252_returns (params : OptionParams F)
    (self : MonteCarloEngine G) :
  (0 <= n_simulations self)%Z ->
  exists grid self', simulate_paths params 252 self = (Ok grid, self').
Proof.
  intros Hn. eexists _, _. apply simulate_paths_eq; lia.
Qed.
End Reduction.

(** X1. Splitting a simulation into two batches on one generator changes
    nothing: a run of [n1 + n2] paths returns the rows of a run of [n1]
    paths followed by the rows of a run of [n2] paths made on the generator
    the first run leaves, and the three runs leave the generator in the same
    final state. *)
Theorem simulate_paths_batches {F G : Type} {ops : FloatOps F}
    {rs : RandomSource F G} (params : OptionParams F) (n_steps n1 n2 : Z)
    (g : G) :
  (0 <= n1)%Z -> (0 <= n2)%Z -> (1 <= n_steps)%Z ->
  exists grid1 self1 grid2 self2 grid self',
    simulate_paths params n_steps (engine_with n1 g) = (Ok grid1, self1) /\
    simulate_paths params n_steps (engine_with n2 (rng self1)) =
      (Ok grid2, self2) /\
    simulate_paths params n_steps (engine_with (n1 + n2) g) =
      (Ok grid, self') /\
    data grid = data grid1 ++ data grid2 /\
    rng self' = rng self2.
Proof.
  intros H1 H2 Hm. eexists _, _, _, _, _, _.
  split; [apply simulate_paths_eq; cbn [engine_with n_simulations]; lia|].
  split; [apply simulate_paths_eq; cbn [engine_with n_simulations]; lia|].
  split; [apply simulate_paths_eq; cbn [engine_with n_simulations]; lia|].
  cbn [engine_with n_simulations rng data].
  set (m := Z.to_nat n_steps).
  replace (Z.to_nat (n1 + n2)) with (Z.to_nat n1 + Z.to_nat n2) by lia.
  split.
  - rewrite seq_app, map_app. f_equal. cbn [Nat.add].
    rewrite map_seq_shift. apply map_ext. intros i.
    symmetry. apply path_row_shift.
  - rewrite <- advance_add. f_equal. lia.
Qed.

Lemma simulate_paths_batches_witness :
  ((0 <= 6000)%Z /\ (0 <= 4000)%Z /\ (1 <= 252)%Z) /\
  exists grid1 self1 grid2 self2 grid self',
    simulate_paths example_params 252 (engine_with 6000 O) =
      (Ok grid1, self1) /\
    simulate_paths example_params 252 (engine_with 4000 (rng self1)) =
      (Ok grid2, self2) /\
    simulate_paths example_params 252 (engine_with (6000 + 4000) O) =
      (Ok grid, self') /\
    data grid = data grid1 ++ data grid2 /\
    rng self' = rng self2.
Proof.
  assert (H1 : (0 <= 6000)%Z) by lia.
  assert (H2 : (0 <= 4000)%Z) by lia.
  assert (Hm : (1 <= 252)%Z) by lia.
  split; [split; [exact H1 | split; [exact H2 | exact Hm]]|].
  exact (simulate_paths_batches example_params O H1 H2 Hm).
Defined.

(** X2. [simulate_paths] reads neither the strike nor the option type: two
    sets of parameters with the same [S0], [T], [r] and [sigma] give the
    same outcome, grid or exception, and leave the engine in the same
    state. *)
Theorem simulate_paths_ignores_strike_and_type {F G : Type}
    {ops : FloatOps F} {rs : RandomSource F G}
    (params1 params2 : OptionParams F) (n_steps : Z)
    (self : MonteCarloEngine G) :
  S0 params1 = S0 params2 -> T params1 = T params2 ->
  r params1 = r params2 -> sigma params1 = sigma params2 ->
  simulate_paths params1 n_steps self = simulate_paths params2 n_steps self.
Proof. apply simulate_paths_frame. Qed.

Lemma simulate_paths_ignores_strike_and_type_witness :
  simulate_paths (with_strike 90%R (with_option_type "put" example_params))
    252 example_engine =
  simulate_paths example_params 252 example_engine.
Proof.
  exact (simulate_paths_ignores_strike_and_type
           (with_strike 90%R (with_option_type "put" example_params))
           example_params 252 example_engine
           eq_refl eq_refl eq_refl eq_refl).
Defined.

(** X3. With [n_simulations = 0] nothing is drawn and no exception is
    raised: [price_option] returns an empty grid, and its price is the
    discount factor times the quotient [0.0 / 0] that the mean of no payoff
    is; the standard error is built from the same quotient. *)
Theorem price_option_no_simulation {F G : Type} {ops : FloatOps F}
    {rs : RandomSource F G} (params : OptionParams F)
    (self : MonteCarloEngine G) :
  n_simulations self = 0%Z ->
  exists res self',
    price_option params self = (Ok res, self') /\
    rng self' = rng self /\
    data (paths res) = [] /\
    price res =
      fmul (np_exp (fmul (fneg (r params)) (T params)))
           (fdiv (of_int 0) (of_int 0)) /\
    std_error res =
      fmul (np_exp (fmul (fneg (r params)) (T params)))
           (fdiv (np_sqrt (fdiv (of_int 0) (of_int 0)))
                 (np_sqrt (of_int 0))).
Proof.
  intros Hn. eexists _, _.
  split; [apply price_option_eq; lia|].
  rewrite Hn. cbn [Z.to_nat seq map rng paths data price std_error Nat.mul].
  split; [reflexivity|]. split; [reflexivity|].
  unfold terminal_prices, payoffs_of. cbn [data map].
  destruct (String.eqb (option_type params) "call"); split; reflexivity.
Qed.

Lemma price_option_no_simulation_witness :
  n_simulations (engine_with 0 O) = 0%Z /\
  exists res self',
    price_option example_params (engine_with 0 O) = (Ok res, self') /\
    data (paths res) = [] /\
    price res = (exp (Ropp 0.05 * 1) * (0 / 0))%R.
Proof.
  assert (Hn : n_simulations (engine_with 0 O) = 0%Z) by reflexivity.
  split; [exact Hn|].
  destruct (price_option_no_simulation example_params (engine_with 0 O) Hn)
    as (res & self' & Hrun & _ & Hdata & Hprice & _).
  exists res, self'. split; [exact Hrun|]. split; [exact Hdata|].
  exact Hprice.
Defined.

(** ** Sums and means of payoffs, over the reals *)

Section RealPayoffs.
Local Open Scope R_scope.

Lemma Rsum_app (l1 l2 : list R) : Rsum (l1 ++ l2) = Rsum l1 + Rsum l2.
Proof.
  unfold Rsum. induction l1 as [|x l1 IH]; simpl.
  - lra.
  - rewrite IH. lra.
Qed.

Lemma Rsum_map_minus {A : Type} (f g : A -> R) (l : list A) :
  Rsum (map (fun x => f x - g x) l) = Rsum (map f l) - Rsum (map g l).
Proof.
  unfold Rsum. induction l as [|x l IH]; simpl.
  - lra.
  - rewrite IH. lra.
Qed.

Lemma Rsum_map_scale {A : Type} (c : R) (f : A -> R) (l : list A) :
  Rsum (map (fun x => c * f x) l) = c * Rsum (map f l).
Proof.
  unfold Rsum. induction l as [|x l IH]; simpl.
  - lra.
  - rewrite IH. lra.
Qed.

Lemma Rsum_map_le {A : Type} (f g : A -> R) (l : list A) :
  (forall x, In x l -> f x <= g x) -> Rsum (map f l) <= Rsum (map g l).
Proof.
  unfold Rsum. induction l as [|x l IH]; intros H; simpl.
  - lra.
  - assert (f x <= g x) by (apply H; now left).
    assert (fold_right Rplus 0 (map f l) <= fold_right Rplus 0 (map g l))
      by (apply IH; intros y Hy; apply H; now right).
    lra.
Qed.

Lemma np_mean_map {A : Type} (f : A -> R) (l : list A) :
  np_mean (map f l) = Rsum (map f l) / INR (List.length l).
Proof. now rewrite np_mean_Rsum, length_map. Qed.

Lemma INR_length_pos {A : Type} (l : list A) :
  l <> [] -> 0 < INR (List.length l).
Proof.
  intros Hl. apply lt_0_INR. destruct l; [congruence | simpl; lia].
Qed.

(** The mean keeps an inequality that holds entry by entry. *)
Lemma np_mean_map_le {A : Type} (f g : A -> R) (l : list A) :
  (forall x, In x l -> f x <= g x) ->
  np_mean (map f l) <= np_mean (map g l).
Proof.
  intros H. rewrite !np_mean_map. unfold Rdiv.
  apply Rmult_le_compat_r.
  - apply Rinv_nonneg, pos_INR.
  - now apply Rsum_map_le.
Qed.

Lemma np_mean_map_minus {A : Type} (f g : A -> R) (l : list A) :
  np_mean (map (fun x => f x - g x) l) =
  np_mean (map f l) - np_mean (map g l).
Proof.
  rewrite !np_mean_map, Rsum_map_minus. unfold Rdiv. ring.
Qed.

Lemma np_mean_map_scale {A : Type} (c : R) (f : A -> R) (l : list A) :
  np_mean (map (fun x => c * f x) l) = c * np_mean (map f l).
Proof.
  rewrite !np_mean_map, Rsum_map_scale. unfold Rdiv. ring.
Qed.

Lemma np_mean_map_id (l : list R) : np_mean (map (fun x => x) l) = np_mean l.
Proof. now rewrite map_id. Qed.

(** On each path the call payoff less the put payoff is the terminal price
    less the strike. *)
Lemma payoff_difference (s k : R) : Rmax (s - k) 0 - Rmax (k - s) 0 = s - k.
Proof.
  destruct (Rle_dec s k) as [H|H].
  - rewrite (Rmax_right (s - k) 0), (Rmax_left (k - s) 0) by lra. lra.
  - rewrite (Rmax_left (s - k) 0), (Rmax_right (k - s) 0) by lra. lra.
Qed.

Lemma mean_payoff_difference (k : R) (l : list R) :
  l <> [] ->
  np_mean (map (fun s => Rmax (s - k) 0) l) -
  np_mean (map (fun s => Rmax (k - s) 0) l) = np_mean l - k.
Proof.
  intros Hl. rewrite <- np_mean_map_minus.
  rewrite (map_ext _ (fun s => s - k)) by (intros; apply payoff_difference).
  rewrite (np_mean_map_minus (fun s => s) (fun _ => k)).
  now rewrite np_mean_map_id, np_mean_constant.
Qed.

Lemma payoffs_of_call {F : Type} {ops : FloatOps F}
    (params : OptionParams F) (S_T : list F) :
  option_type params = "call"%string ->
  payoffs_of params S_T =
  map (fun s => np_maximum (fsub s (K params)) fzero) S_T.
Proof.
  intros H. unfold payoffs_of. now rewrite H.
Qed.

Lemma nonempty_of_length {A : Type} (l : list A) (n : Z) :
  (1 <= n)%Z -> List.length l = Z.to_nat n -> l <> [].
Proof.
  intros Hn Hl E. subst l. simpl in Hl. lia.
Qed.
End RealPayoffs.

(** X4. Put-call parity holds exactly on the sample.  A call and a put
    with the same parameters, priced on engines in the same state, are
    priced on the same grid, and over exact arithmetic the call price less
    the put price is [exp(-r*T) * (mean(S_T) - K)]. *)
Theorem put_call_parity_on_sample {G : Type} {rs : RandomSource R G}
    (params : OptionParams R) (self : MonteCarloEngine G) :
  (1 <= n_simulations self)%Z ->
  exists call put self',
    price_option (with_option_type "call" params) self = (Ok call, self') /\
    price_option (with_option_type "put" params) self = (Ok put, self') /\
    paths call = paths put /\
    (price call - price put =
     exp (- r params * T params) *
     (np_mean (terminal_prices (paths call)) - K params))%R.
Proof.
  intros Hn.
  destruct (simulate_paths_252_returns params self) as (grid & self' & Hrun);
    [lia|].
  destruct (simulate_paths_252_grid _ _ Hrun) as (_ & _ & Hlen & _).
  exists (pricing_of (with_option_type "call" params) (n_simulations self) grid),
         (pricing_of (with_option_type "put" params) (n_simulations self) grid),
         self'.
  split; [now apply (price_option_reduces_grid _ params)|].
  split; [now apply (price_option_reduces_grid _ params)|].
  split; [reflexivity|].
  cbn [pricing_of price paths].
  rewrite payoffs_of_call by reflexivity.
  rewrite payoffs_of_not_call by (cbn [option_type with_option_type]; discriminate).
  change (discount (with_option_type "call" params))
    with (exp (- r params * T params))%R.
  change (discount (with_option_type "put" params))
    with (exp (- r params * T params))%R.
  cbn [K with_option_type].
  change (fmul ?a ?b) with (a * b)%R.
  rewrite <- Rmult_minus_distr_l. f_equal.
  apply mean_payoff_difference. eapply nonempty_of_length; eassumption.
Qed.

Lemma put_call_parity_on_sample_witness :
  (1 <= n_simulations example_engine)%Z /\
  exists call put self',
    price_option (with_option_type "call" example_params) example_engine =
      (Ok call, self') /\
    price_option (with_option_type "put" example_params) example_engine =
      (Ok put, self') /\
    (price call - price put =
     exp (Ropp 0.05 * 1) * (np_mean (terminal_prices (paths call)) - 105))%R.
Proof.
  assert (Hn : (1 <= n_simulations example_engine)%Z) by (cbn; lia).
  split; [exact Hn|].
  destruct (put_call_parity_on_sample example_params example_engine Hn)
    as (call & put & self' & Hc & Hp & _ & Hparity).
  exists call, put, self'. split; [exact Hc|]. split; [exact Hp|].
  exact Hparity.
Defined.

(** ** The paths in closed form, over the reals *)

Section ClosedForm.
Context {G : Type} {rs : RandomSource R G}.
Variable params : OptionParams R.
Local Open Scope R_scope.

(** An entry of a row is [S0] times the exponential of the sum of the log
    returns up to it. *)
Lemma path_row_exp_sum (dt : R) (g : G) (m i t : nat) :
  (t <= m)%nat ->
  nth t (path_row params dt g m i) fzero =
  S0 params *
  exp (Rsum (map (fun k => log_return params dt (nth_draw g k))
               (seq (i * m) t))).
Proof.
  destruct (path_row_spec params dt g m i) as (_ & H0 & Hrec).
  induction t as [|t IH]; intros Ht.
  - rewrite H0. cbn [seq map Rsum fold_right]. rewrite exp_0. ring.
  - rewrite Hrec by lia. cbn [Nat.sub]. rewrite Nat.sub_0_r.
    rewrite IH by lia. rewrite seq_S, map_app, Rsum_app.
    cbn [map Rsum fold_right]. rewrite Rplus_0_r, exp_plus.
    cbn [fmul np_exp R_FloatOps]. ring.
Qed.

Lemma log_return_affine (dt z : R) :
  log_return params dt z =
  (r params - sigma params ^ 2 / 2) * dt + sigma params * sqrt dt * z.
Proof.
  unfold log_return. cbn [fadd fsub fmul fpow of_lit np_sqrt R_FloatOps].
  unfold Q2R. simpl. field.
Qed.

Lemma Rsum_log_returns (dt : R) (z : nat -> R) (l : list nat) :
  Rsum (map (fun k => log_return params dt (z k)) l) =
  (r params - sigma params ^ 2 / 2) * dt * INR (List.length l) +
  sigma params * sqrt dt * Rsum (map z l).
Proof.
  induction l as [|k l IH].
  - simpl. lra.
  - cbn [map List.length]. rewrite S_INR.
    change (Rsum (?x :: ?l')) with (x + Rsum l').
    rewrite IH, log_return_affine. ring.
Qed.

Lemma path_row_positive (dt : R) (g : G) (m i t : nat) :
  0 < S0 params -> (t <= m)%nat ->
  0 < nth t (path_row params dt g m i) fzero.
Proof.
  intros HS Ht. rewrite path_row_exp_sum by assumption.
  apply Rmult_lt_0_compat; [assumption | apply exp_pos].
Qed.

(** The terminal prices of a grid that [simulate_paths] returns are
    positive when [S0] is. *)
Lemma terminal_prices_positive (n_steps : Z) (self self' : MonteCarloEngine G)
    (grid : ndarray R) :
  0 < S0 params -> (1 <= n_steps)%Z ->
  simulate_paths params n_steps self = (Ok grid, self') ->
  forall s, In s (terminal_prices grid) -> 0 < s.
Proof.
  intros HS Hm Hrun s Hs.
  destruct (Z.ltb_spec (n_simulations self) 0) as [Hneg|Hpos].
  - rewrite simulate_paths_negative in Hrun by lia. discriminate.
  - rewrite simulate_paths_eq in Hrun by lia. injection Hrun as <- _.
    unfold terminal_prices in Hs. cbn [shape snd data Nat.sub] in Hs.
    rewrite Nat.sub_0_r, map_map in Hs. apply in_map_iff in Hs.
    destruct Hs as (i & <- & _). apply path_row_positive; [assumption|lia].
Qed.
End ClosedForm.

(** X5. Over exact arithmetic each entry of the grid has the closed form of
    geometric Brownian motion: for [n_steps >= 1] and a count of simulations
    that is not negative, entry [(i, t)] is
    [S0 * exp((r - sigma^2/2) * dt * t + sigma * sqrt(dt) * W)], where [W]
    is the sum of the [t] variates the path has consumed, the variates
    number [i * n_steps] to [i * n_steps + t - 1] of the generator. *)
Theorem simulate_paths_closed_form {G : Type} {rs : RandomSource R G}
    (params : OptionParams R) (n_steps : Z) (self : MonteCarloEngine G) :
  (0 <= n_simulations self)%Z -> (1 <= n_steps)%Z ->
  let n := Z.to_nat (n_simulations self) in
  let m := Z.to_nat n_steps in
  let dt := (T params / IZR n_steps)%R in
  exists grid self',
    simulate_paths params n_steps self = (Ok grid, self') /\
    forall i t, i < n -> t <= m ->
      entry grid i t =
      (S0 params *
       exp ((r params - sigma params ^ 2 / 2) * dt * INR t +
            sigma params * sqrt dt *
            Rsum (map (nth_draw (rng self)) (seq (i * m) t))))%R.
Proof.
  intros Hn Hm n m dt. eexists _, _.
  split; [apply simulate_paths_eq; lia|].
  intros i t Hi Ht. fold n m. rewrite entry_rows by assumption.
  rewrite path_row_exp_sum by assumption.
  rewrite (Rsum_log_returns params _ (nth_draw (rng self))), length_seq.
  reflexivity.
Qed.

Lemma simulate_paths_closed_form_witness :
  ((0 <= n_simulations example_engine)%Z /\ (1 <= 252)%Z) /\
  exists grid self',
    simulate_paths example_params 252 example_engine = (Ok grid, self') /\
    entry grid 0 1 =
      (100 * exp ((0.05 - 0.2 ^ 2 / 2) * (1 / 252) * INR 1 +
                  0.2 * sqrt (1 / 252) * Rsum [INR 0]))%R.
Proof.
  assert (Hn : (0 <= n_simulations example_engine)%Z) by (cbn; lia).
  assert (Hm : (1 <= 252)%Z) by lia.
  split; [split; assumption|].
  destruct (simulate_paths_closed_form example_params example_engine Hn Hm)
    as (grid & self' & Hrun & Hentry).
  exists grid, self'. split; [exact Hrun|].
  apply (Hentry 0 1); cbn [n_simulations example_engine init]; lia.
Defined.

(** X6. Prices stay positive: over exact arithmetic, when [S0 > 0] every
    entry of the grid that [simulate_paths] returns is positive. *)
Theorem simulate_paths_positive {G : Type} {rs : RandomSource R G}
    (params : OptionParams R) (n_steps : Z) (self : MonteCarloEngine G) :
  (0 < S0 params)%R -> (0 <= n_simulations self)%Z -> (1 <= n_steps)%Z ->
  exists grid self',
    simulate_paths params n_steps self = (Ok grid, self') /\
    forall i t, i < Z.to_nat (n_simulations self) -> t <= Z.to_nat n_steps ->
      (0 < entry grid i t)%R.
Proof.
  intros HS Hn Hm. eexists _, _.
  split; [apply simulate_paths_eq; lia|].
  intros i t Hi Ht. rewrite entry_rows by assumption.
  now apply path_row_positive.
Qed.

Lemma simulate_paths_positive_witness :
  ((0 < S0 example_params)%R /\ (0 <= n_simulations example_engine)%Z /\
   (1 <= 252)%Z) /\
  exists grid self',
    simulate_paths example_params 252 example_engine = (Ok grid, self') /\
    (0 < entry grid 0 252)%R.
Proof.
  assert (HS : (0 < S0 example_params)%R) by (cbn; lra).
  assert (Hn : (0 <= n_simulations example_engine)%Z) by (cbn; lia).
  assert (Hm : (1 <= 252)%Z) by lia.
  split; [split; [exact HS | split; [exact Hn | exact Hm]]|].
  destruct (simulate_paths_positive example_params example_engine HS Hn Hm)
    as (grid & self' & Hrun & Hpos).
  exists grid, self'. split; [exact Hrun|].
  apply Hpos; cbn [n_simulations example_engine init]; lia.
Defined.

(** ** Prices against the strike *)

Section StrikeFacts.
Local Open Scope R_scope.

Lemma np_mean_map_plus_constant {A : Type} (f : A -> R) (c : R)
    (l : list A) :
  l <> [] -> np_mean (map (fun x => f x + c) l) = np_mean (map f l) + c.
Proof.
  intros Hl.
  rewrite (map_ext _ (fun x => f x - (fun _ => - c) x)) by (intros; lra).
  rewrite np_mean_map_minus, (np_mean_constant (- c) Hl). lra.
Qed.

Lemma call_payoff_strike (s k1 k2 : R) :
  k1 <= k2 ->
  Rmax (s - k2) 0 <= Rmax (s - k1) 0 <= Rmax (s - k2) 0 + (k2 - k1).
Proof.
  intros H. unfold Rmax. repeat destruct Rle_dec; lra.
Qed.

Lemma put_payoff_strike (s k1 k2 : R) :
  k1 <= k2 ->
  Rmax (k1 - s) 0 <= Rmax (k2 - s) 0 <= Rmax (k1 - s) 0 + (k2 - k1).
Proof.
  intros H. unfold Rmax. repeat destruct Rle_dec; lra.
Qed.

(** The means of two payoffs that are within [c] of each other, entry by
    entry, are within [c] of each other. *)
Lemma np_mean_between {A : Type} (f g : A -> R) (c : R) (l : list A) :
  l <> [] ->
  (forall x, g x <= f x <= g x + c) ->
  np_mean (map g l) <= np_mean (map f l) <= np_mean (map g l) + c.
Proof.
  intros Hl H. split.
  - apply np_mean_map_le. intros x _. apply H.
  - rewrite <- (np_mean_map_plus_constant g c Hl).
    apply np_mean_map_le. intros x _. apply H.
Qed.
End StrikeFacts.

(** X7. On one sample the price is monotone and 1-Lipschitz in the strike,
    up to the discount factor.  Over exact arithmetic, for [K1 <= K2] and
    engines in the same state with [n_simulations >= 1]: a call is worth
    less at [K2] than at [K1], a put more, and in both cases the two prices
    differ by at most [exp(-r*T) * (K2 - K1)]. *)
Theorem price_monotone_in_strike {G : Type} {rs : RandomSource R G}
    (params : OptionParams R) (K1 K2 : R) (self : MonteCarloEngine G) :
  (K1 <= K2)%R -> (1 <= n_simulations self)%Z ->
  exists res1 res2 self',
    price_option (with_strike K1 params) self = (Ok res1, self') /\
    price_option (with_strike K2 params) self = (Ok res2, self') /\
    (option_type params = "call"%string ->
     price res2 <= price res1 <=
     price res2 + exp (- r params * T params) * (K2 - K1))%R /\
    (option_type params <> "call"%string ->
     price res1 <= price res2 <=
     price res1 + exp (- r params * T params) * (K2 - K1))%R.
Proof.
  intros HK Hn.
  destruct (simulate_paths_252_returns params self) as (grid & self' & Hrun);
    [lia|].
  destruct (simulate_paths_252_grid _ _ Hrun) as (_ & _ & Hlen & _).
  assert (Hne : terminal_prices grid <> [])
    by (eapply nonempty_of_length; eassumption).
  exists (pricing_of (with_strike K1 params) (n_simulations self) grid),
         (pricing_of (with_strike K2 params) (n_simulations self) grid),
         self'.
  split; [now apply (price_option_reduces_grid _ params)|].
  split; [now apply (price_option_reduces_grid _ params)|].
  cbn [pricing_of price].
  change (discount (with_strike K1 params))
    with (exp (- r params * T params))%R.
  change (discount (with_strike K2 params))
    with (exp (- r params * T params))%R.
  set (d := exp (- r params * T params)).
  assert (Hd : (0 < d)%R) by apply exp_pos.
  change (fmul ?a ?b) with (a * b)%R.
  split.
  - intros Hcall. rewrite !payoffs_of_call by exact Hcall.
    cbn [K with_strike].
    pose proof (@np_mean_between _
                  (fun s => Rmax (s - K1) 0)%R (fun s => Rmax (s - K2) 0)%R
                  (K2 - K1)%R _ Hne
                  (fun s => call_payoff_strike s HK)) as [H1 H2].
    cbn [fsub np_maximum R_FloatOps]. unfold fzero. cbn [of_int R_FloatOps].
    split; nra.
  - intros Hput.
    rewrite !payoffs_of_not_call by exact Hput.
    cbn [K with_strike].
    pose proof (@np_mean_between _
                  (fun s => Rmax (K2 - s) 0)%R (fun s => Rmax (K1 - s) 0)%R
                  (K2 - K1)%R _ Hne
                  (fun s => put_payoff_strike s HK)) as [H1 H2].
    cbn [fsub np_maximum R_FloatOps]. unfold fzero. cbn [of_int R_FloatOps].
    split; nra.
Qed.

Lemma price_monotone_in_strike_witness :
  ((100 <= 105)%R /\ (1 <= n_simulations example_engine)%Z) /\
  exists res1 res2 self',
    price_option (with_strike 100%R example_params) example_engine =
      (Ok res1, self') /\
    price_option (with_strike 105%R example_params) example_engine =
      (Ok res2, self') /\
    (price res2 <= price res1)%R.
Proof.
  assert (HK : (100 <= 105)%R) by lra.
  assert (Hn : (1 <= n_simulations example_engine)%Z) by (cbn; lia).
  split; [split; assumption|].
  destruct (price_monotone_in_strike example_params example_engine HK Hn)
    as (res1 & res2 & self' & H1 & H2 & Hcall & _).
  exists res1, res2, self'. split; [exact H1|]. split; [exact H2|].
  exact (proj1 (Hcall eq_refl)).
Defined.

(** X8. Bounds that hold on every sample.  Over exact arithmetic, for valid
    parameters and [n_simulations >= 1], with [d = exp(-r*T)] and [S_T] the
    last column of the grid: a call is worth at least [d * (mean(S_T) - K)]
    and at most [d * mean(S_T)], any other option type (a put) at least
    [d * (K - mean(S_T))] and at most [d * K]. *)
Theorem price_bounds {G : Type} {rs : RandomSource R G}
    (params : OptionParams R) (self : MonteCarloEngine G) :
  valid_params params -> (1 <= n_simulations self)%Z ->
  exists res self',
    price_option params self = (Ok res, self') /\
    let d := exp (- r params * T params) in
    let mean_S_T := np_mean (terminal_prices (paths res)) in
    (option_type params = "call"%string ->
     d * (mean_S_T - K params) <= price res <= d * mean_S_T)%R /\
    (option_type params <> "call"%string ->
     d * (K params - mean_S_T) <= price res <= d * K params)%R.
Proof.
  intros (HS & HK & _ & _) Hn.
  destruct (simulate_paths_252_returns params self) as (grid & self' & Hrun);
    [lia|].
  destruct (simulate_paths_252_grid _ _ Hrun) as (_ & _ & Hlen & _).
  assert (Hne : terminal_prices grid <> [])
    by (eapply nonempty_of_length; eassumption).
  assert (Hpos : forall s, In s (terminal_prices grid) -> (0 < s)%R).
  { intros s Hs.
    eapply (@terminal_prices_positive _ _ params 252); try eassumption. lia. }
  exists (pricing_of params (n_simulations self) grid), self'.
  split; [now apply (price_option_reduces_grid _ params)|].
  cbn [pricing_of price paths]. cbn zeta.
  change (discount params) with (exp (- r params * T params))%R.
  set (d := exp (- r params * T params)).
  assert (Hd : (0 < d)%R) by apply exp_pos.
  set (l := terminal_prices grid) in *.
  change (fmul ?a ?b) with (a * b)%R.
  split.
  - intros Hcall. rewrite payoffs_of_call by exact Hcall.
    cbn [fsub np_maximum R_FloatOps]. unfold fzero. cbn [of_int R_FloatOps].
    assert (H1 : (np_mean l - K params <=
                  np_mean (map (fun s => Rmax (s - K params) 0) l))%R).
    { rewrite <- (np_mean_map_id l) at 1.
      rewrite <- (np_mean_constant (K params) Hne) at 1.
      rewrite <- np_mean_map_minus. apply np_mean_map_le.
      intros s _. apply Rmax_l. }
    assert (H2 : (np_mean (map (fun s => Rmax (s - K params) 0) l) <=
                  np_mean l)%R).
    { rewrite <- (np_mean_map_id l) at 1. apply np_mean_map_le.
      intros s Hs. specialize (Hpos s Hs).
      apply Rmax_lub; lra. }
    split; nra.
  - intros Hput. rewrite payoffs_of_not_call by exact Hput.
    cbn [fsub np_maximum R_FloatOps]. unfold fzero. cbn [of_int R_FloatOps].
    assert (H1 : (K params - np_mean l <=
                  np_mean (map (fun s => Rmax (K params - s) 0) l))%R).
    { rewrite <- (np_mean_map_id l) at 1.
      rewrite <- (np_mean_constant (K params) Hne) at 1.
      rewrite <- np_mean_map_minus. apply np_mean_map_le.
      intros s _. apply Rmax_l. }
    assert (H2 : (np_mean (map (fun s => Rmax (K params - s) 0) l) <=
                  K params)%R).
    { apply Rle_trans with (np_mean (map (fun _ : R => K params) l)).
      - apply np_mean_map_le. intros s Hs. specialize (Hpos s Hs).
        apply Rmax_lub; lra.
      - rewrite (np_mean_constant (K params) Hne). lra. }
    split; nra.
Qed.

Lemma price_bounds_witness :
  (valid_params example_params /\ (1 <= n_simulations example_engine)%Z) /\
  exists res self',
    price_option example_params example_engine = (Ok res, self') /\
    (price res <=
     exp (Ropp 0.05 * 1) * np_mean (terminal_prices (paths res)))%R.
Proof.
  assert (Hv : valid_params example_params).
  { unfold valid_params, example_params. simpl. lra. }
  assert (Hn : (1 <= n_simulations example_engine)%Z) by (cbn; lia).
  split; [split; assumption|].
  destruct (price_bounds example_engine Hv Hn)
    as (res & self' & Hrun & Hcall & _).
  exists res, self'. split; [exact Hrun|].
  exact (proj2 (Hcall eq_refl)).
Defined.

(** ** A change of unit *)

Section Rescaling.
Context {G : Type} {rs : RandomSource R G}.
Local Open Scope R_scope.

Lemma Rmax_scale (c a : R) : 0 <= c -> Rmax (c * a) 0 = c * Rmax a 0.
Proof.
  intros Hc. rewrite <- RmaxRmult by assumption. now rewrite Rmult_0_r.
Qed.

Lemma np_mean_scale (c : R) (l : list R) :
  np_mean (map (Rmult c) l) = c * np_mean l.
Proof.
  rewrite (np_mean_map_scale c (fun x => x)). now rewrite map_id.
Qed.

Lemma np_std_scale (c : R) (l : list R) :
  0 <= c -> np_std (map (Rmult c) l) = c * np_std l.
Proof.
  intros Hc. unfold np_std. cbn zeta.
  rewrite np_mean_scale, map_map.
  set (mu := np_mean l).
  rewrite (map_ext _ (fun x => (c * c) * ((x - mu) * (x - mu))))
    by (intros x; cbn [fmul fsub R_FloatOps]; ring).
  rewrite (np_mean_map_scale (c * c) (fun x => (x - mu) * (x - mu))).
  cbn [np_sqrt R_FloatOps]. rewrite sqrt_mult_alt by nra.
  rewrite sqrt_square by assumption. reflexivity.
Qed.

Lemma path_row_rescale (c : R) (params : OptionParams R) (dt : R) (g : G)
    (m i t : nat) :
  (t <= m)%nat ->
  nth t (path_row (rescale c params) dt g m i) fzero =
  c * nth t (path_row params dt g m i) fzero.
Proof.
  intros Ht. rewrite !path_row_exp_sum by assumption.
  unfold log_return. cbn [S0 r sigma rescale]. ring.
Qed.

Lemma payoffs_of_rescale (c : R) (params : OptionParams R) (S_T : list R) :
  0 <= c ->
  payoffs_of (rescale c params) (map (Rmult c) S_T) =
  map (Rmult c) (payoffs_of params S_T).
Proof.
  intros Hc. unfold payoffs_of. cbn [option_type K rescale].
  destruct (String.eqb (option_type params) "call"); rewrite !map_map;
    apply map_ext; intros s; cbn [np_maximum fsub R_FloatOps];
    unfold fzero; cbn [of_int R_FloatOps];
    rewrite <- Rmult_minus_distr_l; now apply Rmax_scale.
Qed.

Lemma terminal_prices_rows {F : Type} {ops : FloatOps F}
    (f : nat -> list F) (n m : nat) :
  terminal_prices {| shape := (n, S m); data := map f (seq 0 n) |} =
  map (fun i => nth m (f i) fzero) (seq 0 n).
Proof.
  unfold terminal_prices. cbn [shape snd data Nat.sub].
  now rewrite Nat.sub_0_r, map_map.
Qed.
End Rescaling.

(** X9. The estimate is homogeneous of degree one in spot and strike.  Over
    exact arithmetic, for [c > 0] and engines in the same state with
    [n_simulations >= 1], multiplying [S0] and [K] by [c] multiplies every
    terminal price, the price and the standard error by [c]. *)
Theorem price_homogeneous {G : Type} {rs : RandomSource R G} (c : R)
    (params : OptionParams R) (self : MonteCarloEngine G) :
  (0 < c)%R -> (1 <= n_simulations self)%Z ->
  exists res res_c self',
    price_option params self = (Ok res, self') /\
    price_option (rescale c params) self = (Ok res_c, self') /\
    terminal_prices (paths res_c) =
      map (Rmult c) (terminal_prices (paths res)) /\
    price res_c = (c * price res)%R /\
    std_error res_c = (c * std_error res)%R.
Proof.
  intros Hc Hn. eexists _, _, _.
  split; [apply price_option_eq; lia|].
  split; [apply price_option_eq; lia|].
  cbn [paths price std_error]. cbn [T rescale].
  set (dt := fdiv (T params) (of_int 252)).
  assert (HST : terminal_prices
                  {| shape := (Z.to_nat (n_simulations self), S (Z.to_nat 252));
                     data := map (path_row (rescale c params) dt (rng self)
                                    (Z.to_nat 252))
                               (seq 0 (Z.to_nat (n_simulations self))) |} =
                map (Rmult c)
                  (terminal_prices
                     {| shape := (Z.to_nat (n_simulations self),
                                  S (Z.to_nat 252));
                        data := map (path_row params dt (rng self)
                                       (Z.to_nat 252))
                                  (seq 0 (Z.to_nat (n_simulations self))) |})).
  { rewrite !terminal_prices_rows, map_map. apply map_ext. intros i.
    now apply path_row_rescale. }
  rewrite HST. split; [reflexivity|].
  rewrite payoffs_of_rescale by lra.
  rewrite np_mean_scale, np_std_scale by lra.
  change (discount (rescale c params)) with (discount params).
  cbn [fmul fdiv R_FloatOps]. unfold Rdiv. split; ring.
Qed.

Lemma price_homogeneous_witness :
  ((0 < 100)%R /\ (1 <= n_simulations example_engine)%Z) /\
  exists res res_c self',
    price_option example_params example_engine = (Ok res, self') /\
    price_option (rescale 100 example_params) example_engine =
      (Ok res_c, self') /\
    price res_c = (100 * price res)%R.
Proof.
  assert (Hc : (0 < 100)%R) by lra.
  assert (Hn : (1 <= n_simulations example_engine)%Z) by (cbn; lia).
  split; [split; assumption|].
  destruct (price_homogeneous example_params example_engine Hc Hn)
    as (res & res_c & self' & H1 & H2 & _ & Hprice & _).
  exists res, res_c, self'. split; [exact H1|]. split; [exact H2|].
  exact Hprice.
Defined.

(** ** One simulation *)

Lemma np_mean_singleton (x : R) : np_mean [x] = x.
Proof. exact (@np_mean_constant unit x [tt] ltac:(discriminate)). Qed.

Lemma np_std_singleton (x : R) : np_std [x] = 0%R.
Proof. exact (@np_std_constant unit x [tt] ltac:(discriminate)). Qed.

(** X10. One simulation gives no measure of error.  Over exact arithmetic,
    with [n_simulations = 1] the price is the discounted payoff of the one
    path, the standard error is 0 and the confidence interval is the single
    point [price]. *)
Theorem price_option_single_simulation {G : Type} {rs : RandomSource R G}
    (params : OptionParams R) (self : MonteCarloEngine G) :
  n_simulations self = 1%Z ->
  exists res self' s,
    price_option params self = (Ok res, self') /\
    terminal_prices (paths res) = [s] /\
    (option_type params = "call"%string ->
     price res = exp (- r params * T params) * Rmax (s - K params) 0)%R /\
    (option_type params <> "call"%string ->
     price res = exp (- r params * T params) * Rmax (K params - s) 0)%R /\
    std_error res = 0%R /\
    ci_lower res = price res /\
    ci_upper res = price res.
Proof.
  intros Hn.
  destruct (simulate_paths_252_returns params self) as (grid & self' & Hrun);
    [lia|].
  destruct (simulate_paths_252_grid _ _ Hrun) as (_ & _ & Hlen & _).
  rewrite Hn in Hlen.
  destruct (terminal_prices grid) as [|s [|s' l]] eqn:HST;
    try discriminate Hlen.
  exists (pricing_of params (n_simulations self) grid), self', s.
  split; [now apply (price_option_reduces_grid _ params)|].
  cbn [pricing_of paths price std_error ci_lower ci_upper].
  rewrite HST. split; [reflexivity|].
  change (discount params) with (exp (- r params * T params))%R.
  assert (Hstd : np_std (payoffs_of params [s]) = 0%R).
  { unfold payoffs_of.
    destruct (String.eqb (option_type params) "call"); apply np_std_singleton. }
  rewrite Hstd.
  split; [|split].
  - intros Hcall. rewrite payoffs_of_call by exact Hcall.
    cbn [map]. now rewrite np_mean_singleton.
  - intros Hput. rewrite payoffs_of_not_call by exact Hput.
    cbn [map]. now rewrite np_mean_singleton.
  - cbn [fmul fdiv fsub fadd R_FloatOps]. unfold Rdiv.
    repeat split; ring.
Qed.

Lemma price_option_single_simulation_witness :
  n_simulations (engine_with 1 O) = 1%Z /\
  exists res self',
    price_option example_params (engine_with 1 O) = (Ok res, self') /\
    std_error res = 0%R /\ ci_lower res = ci_upper res.
Proof.
  assert (Hn : n_simulations (engine_with 1 O) = 1%Z) by reflexivity.
  split; [exact Hn|].
  destruct (price_option_single_simulation example_params (engine_with 1 O) Hn)
    as (res & self' & s & Hrun & _ & _ & _ & Hse & Hlo & Hup).
  exists res, self'. split; [exact Hrun|]. split; [exact Hse|].
  now rewrite Hlo, Hup.
Defined.

(** ** Which variates an entry depends on *)

Section Adaptedness.
Context {F G : Type} {ops : FloatOps F} {rs : RandomSource F G}.

(** The first [t + 1] entries of a row are settled by the first [t]
    variates of the row. *)
Lemma path_row_prefix (params : OptionParams F) (dt : F) (g1 g2 : G)
    (m i t : nat) :
  t <= m ->
  (forall k, k < t -> nth_draw g1 (i * m + k) = nth_draw g2 (i * m + k)) ->
  forall u, u <= t ->
    nth u (path_row params dt g1 m i) fzero =
    nth u (path_row params dt g2 m i) fzero.
Proof.
  intros Ht Hdraws.
  destruct (path_row_spec params dt g1 m i) as (_ & H1 & Hrec1).
  destruct (path_row_spec params dt g2 m i) as (_ & H2 & Hrec2).
  induction u as [|u IH]; intros Hu.
  - now rewrite H1, H2.
  - rewrite Hrec1, Hrec2 by lia. cbn [Nat.sub]. rewrite Nat.sub_0_r.
    rewrite IH by lia. rewrite Hdraws by lia. reflexivity.
Qed.
End Adaptedness.

(** X11. A path never looks ahead, nor at another path.  On two engines,
    whatever their counts of simulations, if the generators agree on the
    first [t] variates of path [i] (the variates number [i * n_steps] to
    [i * n_steps + t - 1]), then the two grids agree on the entries [0] to
    [t] of row [i], whatever the other variates are. *)
Theorem simulate_paths_no_look_ahead {F G : Type} {ops : FloatOps F}
    {rs : RandomSource F G} (params : OptionParams F) (n_steps : Z)
    (self1 self2 : MonteCarloEngine G) (i t : nat) :
  (1 <= n_steps)%Z ->
  i < Z.to_nat (n_simulations self1) ->
  i < Z.to_nat (n_simulations self2) ->
  t <= Z.to_nat n_steps ->
  (forall k, k < t ->
     nth_draw (rng self1) (i * Z.to_nat n_steps + k) =
     nth_draw (rng self2) (i * Z.to_nat n_steps + k)) ->
  exists grid1 self1' grid2 self2',
    simulate_paths params n_steps self1 = (Ok grid1, self1') /\
    simulate_paths params n_steps self2 = (Ok grid2, self2') /\
    forall u, u <= t -> entry grid1 i u = entry grid2 i u.
Proof.
  intros Hm Hi1 Hi2 Ht Hdraws. eexists _, _, _, _.
  split; [apply simulate_paths_eq; lia|].
  split; [apply simulate_paths_eq; lia|].
  intros u Hu. rewrite !entry_rows by assumption.
  now apply path_row_prefix with (t := t).
Qed.

Lemma simulate_paths_no_look_ahead_witness :
  exists grid1 self1' grid2 self2',
    simulate_paths example_params 252 (engine_with 2 O) = (Ok grid1, self1') /\
    simulate_paths example_params 252 (engine_with 5 O) = (Ok grid2, self2') /\
    forall u, u <= Z.to_nat 252 -> entry grid1 1 u = entry grid2 1 u.
Proof.
  apply (simulate_paths_no_look_ahead example_params (n_steps := 252)
           (engine_with 2 O) (engine_with 5 O) (i := 1) (t := Z.to_nat 252)).
  - lia.
  - cbn [n_simulations engine_with]. lia.
  - cbn [n_simulations engine_with]. lia.
  - lia.
  - intros k Hk. reflexivity.
Defined.

(** With no volatility, the terminal prices in the result of
    [price_option]. *)
Lemma price_option_terminal_prices_sigma_zero {G : Type}
    {rs : RandomSource R G} (params : OptionParams R) :
  sigma params = 0%R ->
  forall (self self' : MonteCarloEngine G) (res : PricingResult R),
  price_option params self = (Ok res, self') ->
  terminal_prices (paths res) =
  map (fun _ => (S0 params * exp (r params * T params))%R)
    (seq 0 (Z.to_nat (n_simulations self))).
Proof.
  intros Hsigma self self' res Hrun.
  destruct (Z.ltb_spec (n_simulations self) 0) as [Hneg|Hpos].
  - rewrite price_option_negative in Hrun by lia. discriminate.
  - rewrite price_option_eq in Hrun by lia. injection Hrun as <- _.
    cbn [paths].
    now rewrite (@terminal_prices_sigma_zero _ _ params Hsigma 252) by lia.
Qed.

(** X12. A call that finishes out of the money on every path is priced 0
    with no error.  Over exact arithmetic, for a call and
    [n_simulations >= 1], if every terminal price of the grid is at most
    [K] then the price, the standard error and both bounds of the
    confidence interval are 0. *)
Theorem call_out_of_the_money {G : Type} {rs : RandomSource R G}
    (params : OptionParams R) (self : MonteCarloEngine G) :
  option_type params = "call"%string -> (1 <= n_simulations self)%Z ->
  exists res self',
    price_option params self = (Ok res, self') /\
    ((forall s, In s (terminal_prices (paths res)) -> (s <= K params)%R) ->
     price res = 0%R /\ std_error res = 0%R /\
     ci_lower res = 0%R /\ ci_upper res = 0%R).
Proof.
  intros Hcall Hn.
  destruct (simulate_paths_252_returns params self) as (grid & self' & Hrun);
    [lia|].
  destruct (simulate_paths_252_grid _ _ Hrun) as (_ & _ & Hlen & _).
  assert (Hne : terminal_prices grid <> [])
    by (eapply nonempty_of_length; eassumption).
  exists (pricing_of params (n_simulations self) grid), self'.
  split; [now apply (price_option_reduces_grid _ params)|].
  cbn [pricing_of paths price std_error ci_lower ci_upper]. intros Hotm.
  rewrite payoffs_of_call by exact Hcall.
  rewrite (map_ext_in _ (fun _ => 0%R)).
  2:{ intros s Hs. specialize (Hotm s Hs).
      cbn [np_maximum fsub R_FloatOps]. unfold fzero. cbn [of_int R_FloatOps].
      apply Rmax_right. lra. }
  rewrite (np_mean_constant 0%R Hne), (np_std_constant 0%R Hne).
  cbn [fmul fdiv fsub fadd R_FloatOps]. unfold Rdiv.
  repeat split; ring.
Qed.

Lemma call_out_of_the_money_witness :
  let params := {| S0 := 100%R; K := 105%R; T := 1%R; r := 0%R;
                   sigma := 0%R; option_type := "call" |} in
  (option_type params = "call"%string /\
   (1 <= n_simulations example_engine)%Z) /\
  exists res self',
    price_option params example_engine = (Ok res, self') /\
    price res = 0%R /\ std_error res = 0%R.
Proof.
  intros params.
  assert (Hcall : option_type params = "call"%string) by reflexivity.
  assert (Hn : (1 <= n_simulations example_engine)%Z) by (cbn; lia).
  split; [split; assumption|].
  destruct (call_out_of_the_money params example_engine Hcall Hn)
    as (res & self' & Hrun & Hzero).
  exists res, self'. split; [exact Hrun|].
  assert (Hotm : forall s, In s (terminal_prices (paths res)) ->
                   (s <= K params)%R).
  { intros s Hs.
    rewrite (price_option_terminal_prices_sigma_zero params eq_refl _ Hrun)
      in Hs.
    apply in_map_iff in Hs. destruct Hs as (_ & <- & _).
    cbn [S0 r T K params]. rewrite Rmult_0_l, exp_0. lra. }
  destruct (Hzero Hotm) as (Hp & Hse & _). split; assumption.
Defined.
